(** * common/types.go: identifiers and the validation gate of the native calls

    A shallow embedding of [src/common/types.go] (package [common] of efsn)
    and the properties of its identifier codec, its copy helpers and its
    [Check] methods.

    Conventions of the embedding:
    - [*big.Int] parameters that are only read are [option Z] ([None] is the
      nil pointer); where a claim depends on sharing, a [*big.Int] is a
      location of an explicit heap of integers ([Store.heap]);
    - [uint64], [int64] and [uint8] values are [Z], with Go's wrap-around
      written out ([u64], [i64], [u8]);
    - a Go [string] is a [string] (a sequence of 8-bit characters), a
      [[]byte] is a [list byte];
    - an [error] is [option string]: [nil] is [None], [fmt.Errorf m] is
      [Some m]. *)

From Stdlib Require Import ZArith Lia Bool Ascii Strings.Byte.
From Stdlib Require String.
From stdpp Require Import base option list gmap strings pretty.

Local Open Scope Z_scope.

(** ** Go primitives *)

Definition error : Type := option string.
Definition nil_error : error := None.
Definition Errorf (msg : string) : error := Some msg.

(** Modelled from the spec: [Big0] of common/big.go, which is not part of
    the sources at hand. Every [Check] compares with it, and the
    specification states these comparisons against zero ([<= 0], [> 0]). *)
Definition Big0 : Z := 0.

(** [x.Cmp(y)]: -1, 0 or 1. *)
Definition Cmp (x y : Z) : Z :=
  match x ?= y with
  | Lt => -1
  | Eq => 0
  | Gt => 1
  end.

(** [new(big.Int).Mul(x, y)]: arbitrary precision, no wrap-around. *)
Definition Mul (x y : Z) : Z := x * y.

(** [len(s)] of a Go string: its number of bytes. *)
Definition len (s : string) : Z := Z.of_nat (String.length s).

(** Wrap-around of the fixed-width integer types. *)
Definition u64 (z : Z) : Z := z mod 2 ^ 64.
Definition i64 (z : Z) : Z := (z + 2 ^ 63) mod 2 ^ 64 - 2 ^ 63.
Definition u8 (z : Z) : Z := z mod 2 ^ 8.

Definition is_u64 (z : Z) : Prop := 0 <= z < 2 ^ 64.
Definition is_i64 (z : Z) : Prop := - 2 ^ 63 <= z < 2 ^ 63.

(** [p == nil || p.Cmp(Big0) <= 0] and its variant with [<], on a
    [*big.Int] that the method only reads. *)
Definition nil_or_le0 (p : option Z) : bool :=
  match p with
  | None => true
  | Some v => Cmp v Big0 <=? 0
  end.

Definition nil_or_lt0 (p : option Z) : bool :=
  match p with
  | None => true
  | Some v => Cmp v Big0 <? 0
  end.

(** ** Hash and Address: fixed-length byte arrays *)

Definition HashLength : nat := 32.
Definition AddressLength : nat := 20.

(** [Hash] is [[32]byte], [Address] is [[20]byte]: lists of bytes whose
    length is fixed by [is_Hash] and [is_Address]. *)
Definition Hash : Type := list byte.
Definition Address : Type := list byte.

Definition is_Hash (h : Hash) : Prop := length h = HashLength.
Definition is_Address (a : Address) : Prop := length a = AddressLength.

(** The zero values [Hash{}] and [Address{}]. *)
Definition Hash_zero : Hash := replicate HashLength x00.
Definition Address_zero : Address := replicate AddressLength x00.

#[global] Instance byte_eq_decision : EqDecision byte := Byte.byte_eq_dec.

(** Go's builtin [copy(dst, src)]: overwrites the first
    [min (len dst) (len src)] elements of [dst]. *)
Definition copy {A} (dst src : list A) : list A :=
  take (length dst) src ++ drop (length src) dst.

(** [a[i:]] and writing through the slice [a[i:]]: the elements before
    [i] are kept and the rest is what the write leaves. *)
Definition copy_at {A} (a : list A) (i : nat) (src : list A) : list A :=
  take i a ++ copy (drop i a) src.

(** [func (h *Hash) SetBytes(b []byte)] *)
Definition Hash_SetBytes (h : Hash) (b : list byte) : Hash :=
  let b := if bool_decide (length h < length b)%nat
           then drop (length b - HashLength) b else b in
  copy_at h (HashLength - length b) b.

(** [func BytesToHash(b []byte) Hash] *)
Definition BytesToHash (b : list byte) : Hash :=
  let h := Hash_zero in
  Hash_SetBytes h b.

(** [func (h Hash) Bytes() []byte] *)
Definition Hash_Bytes (h : Hash) : list byte := h.

(** [func (a *Address) SetBytes(b []byte)] *)
Definition Address_SetBytes (a : Address) (b : list byte) : Address :=
  let b := if bool_decide (length a < length b)%nat
           then drop (length b - AddressLength) b else b in
  copy_at a (AddressLength - length b) b.

(** [func BytesToAddress(b []byte) Address] *)
Definition BytesToAddress (b : list byte) : Address :=
  let a := Address_zero in
  Address_SetBytes a b.

(** [func (a Address) Bytes() []byte] *)
Definition Address_Bytes (a : Address) : list byte := a.

(** [func (a Address) Hash() Hash] *)
Definition Address_Hash (a : Address) : Hash := BytesToHash a.

(** ** The parameters of the native calls and their [Check] methods

    [blockNumber *big.Int] is carried as the methods carry it; none of
    them reads it. *)

Module GenAssetParam.

Record t : Type := mk {
  Name : string;
  Symbol : string;
  Decimals : Z;          (* uint8 *)
  Total : option Z;      (* *big.Int *)
  CanChange : bool;
  Description : string
}.

(** [func (p *GenAssetParam) Check(blockNumber *big.Int) error] *)
Definition Check (p : t) (blockNumber : option Z) : error :=
  if (len (Name p) =? 0) || (len (Symbol p) =? 0) || nil_or_lt0 (Total p) then
    Errorf "GenAssetFunc name, symbol and total must be set"
  else if Decimals p >? 18 then
    Errorf "GenAssetFunc decimals must be between 0 and 18"
  else if len (Description p) >? 1024 then
    Errorf "GenAsset description length is greater than 1024 chars"
  else if len (Name p) >? 128 then
    Errorf "GenAsset name length is greater than 128 chars"
  else if len (Symbol p) >? 64 then
    Errorf "GenAsset symbol length is greater than 64 chars"
  else nil_error.

(** The failure condition in the words of the specification (section 4.2),
    to be compared with [Check]. *)
Definition spec_fails (p : t) : Prop :=
  Name p = "" \/ Symbol p = "" \/
  Total p = None \/ (exists v, Total p = Some v /\ v <= 0) \/
  Decimals p > 18 \/ len (Description p) > 1024 \/
  len (Name p) > 128 \/ len (Symbol p) > 64.

(** The failure condition that [Check] implements: a total of zero is
    accepted. *)
Definition fails (p : t) : Prop :=
  Name p = "" \/ Symbol p = "" \/
  Total p = None \/ (exists v, Total p = Some v /\ v < 0) \/
  Decimals p > 18 \/ len (Description p) > 1024 \/
  len (Name p) > 128 \/ len (Symbol p) > 64.

End GenAssetParam.

Module SendAssetParam.

Record t : Type := mk {
  AssetID : Hash;
  To : Address;
  Value : option Z       (* *big.Int *)
}.

(** [func (p *SendAssetParam) Check(blockNumber *big.Int) error] *)
Definition Check (p : t) (blockNumber : option Z) : error :=
  if nil_or_le0 (Value p) then
    Errorf "Value must be set and greater than 0"
  else if bool_decide (To p = Address_zero) then
    Errorf "receiver address must be set and not zero address"
  else nil_error.

End SendAssetParam.

Module TimeLockParam.

Record t : Type := mk {
  Type_ : Z;             (* TimeLockType *)
  AssetID : Hash;
  To : Address;
  StartTime : Z;         (* uint64 *)
  EndTime : Z;           (* uint64 *)
  Value : option Z       (* *big.Int *)
}.

(** [func (p *TimeLockParam) Check(blockNumber *big.Int, timestamp uint64) error] *)
Definition Check (p : t) (blockNumber : option Z) (timestamp : Z) : error :=
  if nil_or_le0 (Value p) then
    Errorf "Value must be set and greater than 0"
  else if StartTime p >? EndTime p then
    Errorf "StartTime must be less than or equal to EndTime"
  else if EndTime p <? timestamp then
    Errorf "EndTime must be greater than latest block time"
  else nil_error.

End TimeLockParam.

Module BuyTicketParam.

Record t : Type := mk {
  Start : Z;             (* uint64 *)
  End_ : Z               (* uint64 *)
}.

(** [func (p *BuyTicketParam) Check(blockNumber *big.Int, timestamp uint64, adjust int64) error]

    [start+30*24*3600] and [timestamp+3*3600] are [uint64] sums,
    [7*24*3600+adjust] is an [int64] sum converted to [uint64]. *)
Definition Check (p : t) (blockNumber : option Z) (timestamp : Z) (adjust : Z)
  : error :=
  let start := Start p in
  let end_ := End_ p in
  if (end_ <=? start) || (end_ <? u64 (start + 30 * 24 * 3600)) then
    Errorf "BuyTicket end must be lower than start + 1 month"
  else if negb (timestamp =? 0) then
    if start >? u64 (timestamp + 3 * 3600) then
      Errorf "BuyTicket start must be lower than latest block time + 3 hour"
    else if end_ <? u64 (timestamp + u64 (i64 (7 * 24 * 3600 + adjust))) then
      Errorf "BuyTicket end must be greater than latest block time + 1 week"
    else nil_error
  else nil_error.

(** The parameter and its context are values of their Go types. *)
Definition well_typed (p : t) (timestamp adjust : Z) : Prop :=
  is_u64 (Start p) /\ is_u64 (End_ p) /\ is_u64 timestamp /\ is_i64 adjust.

(** The failure condition in the words of the specification (section 4.3),
    over the integers. *)
Definition spec_fails (p : t) (timestamp adjust : Z) : Prop :=
  End_ p <= Start p \/ End_ p < Start p + 30 * 86400 \/
  (timestamp <> 0 /\
   (Start p > timestamp + 3 * 3600 \/
    End_ p < timestamp + 7 * 86400 + adjust)).

(** None of the three sums leaves the range of its type. *)
Definition no_overflow (p : t) (timestamp adjust : Z) : Prop :=
  Start p + 30 * 86400 < 2 ^ 64 /\
  timestamp + 3 * 3600 < 2 ^ 64 /\
  0 <= timestamp + 7 * 86400 + adjust < 2 ^ 64.

End BuyTicketParam.

Module AssetValueChangeParam.

Record t : Type := mk {
  AssetID : Hash;
  To : Address;
  Value : option Z;      (* *big.Int *)
  IsInc : bool
}.

(** [func (p *AssetValueChangeParam) Check(blockNumber *big.Int) error] *)
Definition Check (p : t) (blockNumber : option Z) : error :=
  if nil_or_le0 (Value p) then
    Errorf "Value must be set and greater than 0"
  else nil_error.

End AssetValueChangeParam.

Module AssetValueChangeExParam.

Record t : Type := mk {
  AssetID : Hash;
  To : Address;
  Value : option Z;      (* *big.Int *)
  IsInc : bool;
  TransacData : string
}.

(** [func (p *AssetValueChangeExParam) Check(blockNumber *big.Int) error] *)
Definition Check (p : t) (blockNumber : option Z) : error :=
  if nil_or_le0 (Value p) then
    Errorf "Value must be set and greater than 0"
  else if len (TransacData p) >? 256 then
    Errorf "TransacData must not be greater than 256"
  else nil_error.

End AssetValueChangeExParam.

(** [type Swap struct]: the stored offer, as [RecallSwapParam.Check] and
    [TakeSwapParam.Check] read it. *)
Module Swap.

Record t : Type := mk {
  ID : Hash;
  Owner : Address;
  FromAssetID : Hash;
  FromStartTime : Z;           (* uint64 *)
  FromEndTime : Z;             (* uint64 *)
  MinFromAmount : option Z;    (* *big.Int *)
  ToAssetID : Hash;
  ToStartTime : Z;             (* uint64 *)
  ToEndTime : Z;               (* uint64 *)
  MinToAmount : option Z;      (* *big.Int *)
  SwapSize : option Z;         (* *big.Int *)
  Targes : list Address;
  Time : option Z;             (* *big.Int *)
  Description : string
}.

End Swap.

Module MakeSwapParam.

Record t : Type := mk {
  FromAssetID : Hash;
  FromStartTime : Z;           (* uint64 *)
  FromEndTime : Z;             (* uint64 *)
  MinFromAmount : option Z;    (* *big.Int *)
  ToAssetID : Hash;
  ToStartTime : Z;             (* uint64 *)
  ToEndTime : Z;               (* uint64 *)
  MinToAmount : option Z;      (* *big.Int *)
  SwapSize : option Z;         (* *big.Int *)
  Targes : list Address;
  Time : option Z;             (* *big.Int *)
  Description : string
}.

(** [func (p *MakeSwapParam) Check(blockNumber *big.Int, timestamp uint64) error]

    The first test leaves the three integers set, so the product is taken
    of two values. *)
Definition Check (p : t) (blockNumber : option Z) (timestamp : Z) : error :=
  match MinFromAmount p, MinToAmount p, SwapSize p with
  | Some minFromAmount, Some minToAmount, Some swapSize =>
      if (Cmp minFromAmount Big0 <=? 0) || (Cmp minToAmount Big0 <=? 0)
         || (Cmp swapSize Big0 <=? 0) then
        Errorf "MinFromAmount,MinToAmount and SwapSize must be ge 1"
      else if len (Description p) >? 1024 then
        Errorf "MakeSwap description length is greater than 1024 chars"
      else
        let total := Mul minFromAmount swapSize in
        if Cmp total Big0 <=? 0 then
          Errorf "size * MinFromAmount too large"
        else if FromStartTime p >? FromEndTime p then
          Errorf "MakeSwap FromStartTime > FromEndTime"
        else if ToStartTime p >? ToEndTime p then
          Errorf "MakeSwap ToStartTime > ToEndTime"
        else if FromEndTime p <=? timestamp then
          Errorf "MakeSwap FromEndTime <= latest blockTime"
        else if ToEndTime p <=? timestamp then
          Errorf "MakeSwap ToEndTime <= latest blockTime"
        else nil_error
  | _, _, _ => Errorf "MinFromAmount,MinToAmount and SwapSize must be ge 1"
  end.

(** An integer field is unset or not positive. *)
Definition unset_or_le0 (p : option Z) : Prop :=
  p = None \/ exists v, p = Some v /\ v <= 0.

(** The failure condition in the words of the specification (section 4.4). *)
Definition spec_fails (p : t) (timestamp : Z) : Prop :=
  unset_or_le0 (MinFromAmount p) \/ unset_or_le0 (MinToAmount p) \/
  unset_or_le0 (SwapSize p) \/
  len (Description p) > 1024 \/
  (exists a s, MinFromAmount p = Some a /\ SwapSize p = Some s /\ a * s <= 0) \/
  FromStartTime p > FromEndTime p \/ ToStartTime p > ToEndTime p \/
  FromEndTime p <= timestamp \/ ToEndTime p <= timestamp.

End MakeSwapParam.

Module RecallSwapParam.

Record t : Type := mk {
  SwapID : Hash
}.

(** [func (p *RecallSwapParam) Check(blockNumber *big.Int, swap *Swap) error] *)
Definition Check (p : t) (blockNumber : option Z) (swap : Swap.t) : error :=
  match Swap.MinFromAmount swap with
  | None => Errorf "swap illegal: MinFromAmount must be set and greater than 0"
  | Some minFromAmount =>
      if Cmp minFromAmount Big0 <=? 0 then
        Errorf "swap illegal: MinFromAmount must be set and greater than 0"
      else
        match Swap.SwapSize swap with
        | None => Errorf "swap illegal: SwapSize must be set and greater than 0"
        | Some swapSize =>
            if Cmp swapSize Big0 <=? 0 then
              Errorf "swap illegal: SwapSize must be set and greater than 0"
            else
              let total := Mul minFromAmount swapSize in
              if Cmp total Big0 <=? 0 then
                Errorf "size * minFromAmount too large"
              else nil_error
        end
  end.

End RecallSwapParam.

Module TakeSwapParam.

Record t : Type := mk {
  SwapID : Hash;
  Size : option Z              (* *big.Int *)
}.

(** [func (p *TakeSwapParam) Check(blockNumber *big.Int, swap *Swap, timestamp uint64) error]

    The tests run in the order of the source; each [match] is the nil test
    of the [||] chain it stands for. *)
Definition Check (p : t) (blockNumber : option Z) (swap : Swap.t)
  (timestamp : Z) : error :=
  match Size p with
  | None => Errorf "Size must be ge 1 and le Swapsize"
  | Some size =>
      if Cmp size Big0 <=? 0 then Errorf "Size must be ge 1 and le Swapsize"
      else
        match Swap.SwapSize swap with
        | None => Errorf "Size must be ge 1 and le Swapsize"
        | Some swapSize =>
            if Cmp size swapSize >? 0 then
              Errorf "Size must be ge 1 and le Swapsize"
            else
              match Swap.MinFromAmount swap with
              | None => Errorf "MinFromAmount less than  equal to zero"
              | Some minFromAmount =>
                  if Cmp minFromAmount Big0 <=? 0 then
                    Errorf "MinFromAmount less than  equal to zero"
                  else
                    match Swap.MinToAmount swap with
                    | None => Errorf "MinToAmount less than  equal to zero"
                    | Some minToAmount =>
                        if Cmp minToAmount Big0 <=? 0 then
                          Errorf "MinToAmount less than  equal to zero"
                        else
                          let fromTotal := Mul minFromAmount size in
                          if Cmp fromTotal Big0 <=? 0 then
                            Errorf "fromTotal less than  equal to zero"
                          else
                            let toTotal := Mul minToAmount size in
                            if Cmp toTotal Big0 <=? 0 then
                              Errorf "toTotal less than  equal to zero"
                            else if Swap.FromEndTime swap <=? timestamp then
                              Errorf "swap expired: FromEndTime <= latest blockTime"
                            else if Swap.ToEndTime swap <=? timestamp then
                              Errorf "swap expired: ToEndTime <= latest blockTime"
                            else nil_error
                    end
              end
        end
  end.

(** The success condition in the words of the specification (section 4.4). *)
Definition spec_succeeds (p : t) (swap : Swap.t) (timestamp : Z) : Prop :=
  exists size swapSize minFrom minTo,
    Size p = Some size /\ Swap.SwapSize swap = Some swapSize /\
    Swap.MinFromAmount swap = Some minFrom /\
    Swap.MinToAmount swap = Some minTo /\
    0 < size <= swapSize /\ minFrom > 0 /\ minTo > 0 /\
    minFrom * size > 0 /\ minTo * size > 0 /\
    Swap.FromEndTime swap > timestamp /\ Swap.ToEndTime swap > timestamp.

End TakeSwapParam.

(** ** Shared integers: the heap of [big.Int] values

    [Asset], [Ticket] and the collections of tickets hold [*big.Int]
    fields, and their copy helpers decide which of them are shared. A
    pointer is a location of a heap of integers or nil; a method that
    dereferences or allocates is a computation over the heap that can
    panic (a nil dereference). *)
Module Store.

Definition loc : Type := positive.
Definition ptr : Type := option loc.
Abbreviation heap := (gmap positive Z).

Definition M (A : Type) : Type := heap -> option (A * heap).

#[global] Instance M_ret : MRet M := fun A (x : A) h => Some (x, h).
#[global] Instance M_bind : MBind M := fun A B (k : A -> M B) (m : M A) h =>
  match m h with
  | Some (x, h') => k x h'
  | None => None
  end.

(** [*p]: the value [p] points to; a panic when [p] is nil. *)
Definition deref (p : ptr) : M Z := fun h =>
  match p with
  | Some l => match h !! l with Some v => Some (v, h) | None => None end
  | None => None
  end.

(** [v := ...; &v] and [new(big.Int)]: a fresh integer holding [v]. *)
Definition alloc (v : Z) : M loc := fun h =>
  let l := fresh (dom h) in Some (l, <[l := v]> h).

(** [p.Set(v)] of math/big, and every method that writes its receiver:
    the integer [p] points to becomes [v]. *)
Definition set (p : ptr) (v : Z) : M unit := fun h =>
  match p with
  | Some l => match h !! l with Some _ => Some (tt, <[l := v]> h) | None => None end
  | None => None
  end.

(** What a reader of [p] sees in [h]. *)
Definition read (h : heap) (p : ptr) : option Z :=
  match p with
  | Some l => h !! l
  | None => None
  end.

(** [p] is nil or points to an integer of [h]. *)
Definition valid (h : heap) (p : ptr) : Prop :=
  match p with
  | Some l => is_Some (h !! l)
  | None => True
  end.

End Store.

Module Asset.

Record t : Type := mk {
  ID : Hash;
  Owner : Address;
  Name : string;
  Symbol : string;
  Decimals : Z;                (* uint8 *)
  Total : Store.ptr;           (* *big.Int *)
  CanChange : bool;
  Description : string
}.

(** [func (u *Asset) DeepCopy() Asset]: the composite literal names seven
    fields; [Description] is left at the zero value of its type. *)
Definition DeepCopy (u : t) : Store.M t :=
  total ← Store.deref (Total u);
  ptotal ← Store.alloc total;
  mret {| ID := ID u;
          Owner := Owner u;
          Name := Name u;
          Symbol := Symbol u;
          Decimals := Decimals u;
          Total := Some ptotal;
          CanChange := CanChange u;
          Description := "" |}.

End Asset.

Module Ticket.

Record t : Type := mk {
  ID : Hash;
  Owner : Address;
  Height : Store.ptr;          (* *big.Int *)
  StartTime : Z;               (* uint64 *)
  ExpireTime : Z;              (* uint64 *)
  Value : Store.ptr;           (* *big.Int *)
  weight : Store.ptr           (* *big.Int *)
}.

(** [func (t *Ticket) Weight() *big.Int] *)
Definition Weight (t : t) : Store.ptr := weight t.

(** [func (t *Ticket) SetWeight(value *big.Int)] *)
Definition SetWeight (t : t) (value : Store.ptr) : Ticket.t :=
  {| ID := ID t; Owner := Owner t; Height := Height t;
     StartTime := StartTime t; ExpireTime := ExpireTime t;
     Value := Value t; weight := value |}.

(** [func (t *Ticket) DeepCopy() Ticket]: [height] and [value] are new
    integers; [&( *w)] is [w] itself. *)
Definition DeepCopy (t : t) : Store.M Ticket.t :=
  height ← Store.deref (Height t);
  pheight ← Store.alloc height;
  value ← Store.deref (Value t);
  pvalue ← Store.alloc value;
  let w := Weight t in
  wt ← Store.alloc 0;
  let wt := match w with Some _ => w | None => Some wt end in
  mret {| ID := ID t;
          Owner := Owner t;
          Height := Some pheight;
          StartTime := StartTime t;
          ExpireTime := ExpireTime t;
          Value := Some pvalue;
          weight := wt |}.

(** The three [*big.Int] fields of a ticket. *)
Inductive int_field : Type := FHeight | FValue | Fweight.

Definition get (f : int_field) (t : t) : Store.ptr :=
  match f with
  | FHeight => Height t
  | FValue => Value t
  | Fweight => weight t
  end.

End Ticket.

(** [type TicketStruct struct { Hash; Ticket }] *)
Module TicketStruct.

Record t : Type := mk {
  Hash_ : Hash;
  Ticket_ : Ticket.t
}.

End TicketStruct.

(** [func (t *Ticket) toTicketStruct() TicketStruct] *)
Definition Ticket_toTicketStruct (t : Ticket.t) : TicketStruct.t :=
  TicketStruct.mk (Ticket.ID t) t.

(** Keys of [map[Hash]Ticket]: bytes are countable through their value. *)
#[global] Instance byte_countable : Countable byte :=
  inj_countable Byte.to_N Byte.of_N Byte.of_to_N.

Module TicketSlice.

(** [type TicketSlice []Ticket]: [None] is the nil slice, [Some l] a slice
    with the elements [l] ([Some []] is empty and not nil). *)
Definition t : Type := option (list Ticket.t).

(** [append(r, x)] on a slice that is not nil. *)
Definition append (r : list Ticket.t) (x : Ticket.t) : list Ticket.t :=
  r ++ [x].

(** [func (s TicketSlice) DeepCopy() TicketSlice]: [r] is a new backing
    array, filled with the [Ticket] structs of [s] as they are; the loop
    neither reads nor allocates an integer. *)
Definition DeepCopy (s : t) : t :=
  match s with
  | None => None
  | Some l =>
      if (length l =? 0)%nat then None
      else
        let r := [] in
        Some (fold_left (fun r t => append r t) l r)
  end.

(** The independence that section 4.3 of the specification asks of a
    copy: a write through an integer field of an element of the copy
    leaves what the same field of the element of the original reads. *)
Definition independent (copy : t -> t) : Prop :=
  forall (h h' : Store.heap) (l r : list Ticket.t) (i : nat)
         (x c : Ticket.t) (f : Ticket.int_field) (v' : Z),
    copy (Some l) = Some r -> l !! i = Some x -> r !! i = Some c ->
    Store.set (Ticket.get f c) v' h = Some (tt, h') ->
    Store.read h' (Ticket.get f x) = Store.read h (Ticket.get f x).

(** [func (s TicketSlice) Len() int] *)
Definition Len (s : t) : nat :=
  match s with
  | None => 0%nat
  | Some l => length l
  end.

(** [type TicketStructSlice []TicketStruct], nil or not as [t]. *)
Definition TicketStructSlice : Type := option (list TicketStruct.t).

(** The elements a [range] loop visits: none for the nil slice. *)
Definition elements {A} (s : option (list A)) : list A :=
  match s with
  | None => []
  | Some l => l
  end.

(** [func (s TicketStructSlice) ToTicketSlice() TicketSlice]: [r] is made
    by [make], so it is not nil even when [s] is. *)
Definition ToTicketSlice (s : TicketStructSlice) : t :=
  let r := [] in
  Some (fold_left (fun r x => r ++ [TicketStruct.Ticket_ x]) (elements s) r).

(** [func (s TicketSlice) ToTicketStructSlice() TicketStructSlice] *)
Definition ToTicketStructSlice (s : t) : TicketStructSlice :=
  let r := [] in
  Some (fold_left (fun r x => r ++ [Ticket_toTicketStruct x]) (elements s) r).

(** [func (s TicketSlice) Swap(i, j int)]: the content of the slice after
    the exchange; an index out of range is a panic ([None]). *)
Definition Swap (s : t) (i j : nat) : option (list Ticket.t) :=
  let l := elements s in
  match l !! i, l !! j with
  | Some x, Some y => Some (<[j := x]> (<[i := y]> l))
  | _, _ => None
  end.

(** [func (s TicketSlice) ToMap() map[Hash]Ticket] *)
Definition ToMap (s : t) : gmap (list byte) Ticket.t :=
  let r := ∅ in
  fold_left (fun r x => <[Ticket.ID x := x]> r) (elements s) r.

(** The loop of [Get] over the elements still to visit. *)
Fixpoint Get_loop (l : list Ticket.t) (tid : Hash) : option Ticket.t * bool :=
  match l with
  | [] => (None, false)
  | x :: rest =>
      if bool_decide (Ticket.ID x = tid) then (Some x, true)
      else Get_loop rest tid
  end.

(** [func (s TicketSlice) Get(tid Hash)], of result type [*Ticket] and
    [bool]: the pointer returned is to the loop's own copy of the element,
    here its value. *)
Definition Get (s : t) (tid : Hash) : option Ticket.t * bool :=
  Get_loop (elements s) tid.

(** [func (s TicketSlice) Add(ticket *Ticket) TicketSlice], for a ticket
    that is not nil: [append] gives a slice that is not nil. *)
Definition Add (s : t) (ticket : Ticket.t) : t :=
  Some (elements s ++ [ticket]).

(** The loop of [Delete] over the elements from index [i] on: the index
    at which it breaks, that of the first element whose [ID] is [tid], if
    there is one. *)
Fixpoint Delete_loop (rest : list Ticket.t) (i : nat) (tid : Hash)
  : option nat :=
  match rest with
  | [] => None
  | x :: rest' =>
      if bool_decide (Ticket.ID x = tid) then Some i
      else Delete_loop rest' (S i) tid
  end.

(** [func (s TicketSlice) Delete(tid Hash) TicketSlice]: the slice
    returned, [append(s[:i], s[i+1:]...)] at the index [i] of the break,
    [s] itself when the loop ends without one. *)
Definition Delete (s : t) (tid : Hash) : t :=
  match s with
  | None => None
  | Some l =>
      match Delete_loop l 0 tid with
      | Some i => Some (take i l ++ drop (S i) l)
      | None => Some l
      end
  end.


End TicketSlice.

(** ** Hexadecimal text

    Bytes are compared and computed on through their value in [Z];
    [Zbyte] is the conversion to [byte] and wraps like [uint8]. *)

Definition byteZ (b : byte) : Z := Z.of_N (Byte.to_N b).

Definition Zbyte (z : Z) : byte :=
  match Byte.of_N (Z.to_N (u8 z)) with
  | Some b => b
  | None => x00
  end.

#[global] Instance byte_inhabited : Inhabited byte := populate x00.

(** [const hextable = 0123456789abcdef] of encoding/hex. *)
Definition hextable : list byte := String.list_byte_of_string "0123456789abcdef".

(** [hex.EncodeToString(src)]: two characters for every byte,
    [hextable[v>>4]] and [hextable[v&0x0f]]. *)
Fixpoint Encode (src : list byte) : list byte :=
  match src with
  | [] => []
  | v :: rest =>
      hextable !!! Z.to_nat (byteZ (Zbyte (Z.shiftr (byteZ v) 4))) ::
      hextable !!! Z.to_nat (byteZ (Zbyte (Z.land (byteZ v) 15))) ::
      Encode rest
  end.

Definition EncodeToString (src : list byte) : string :=
  String.string_of_list_byte (Encode src).

(** [fromHexChar] of encoding/hex: the value of a hexadecimal character of
    either case. *)
Definition fromHexChar (c : byte) : option byte :=
  let z := byteZ c in
  if (48 <=? z) && (z <=? 57) then Some (Zbyte (z - 48))
  else if (97 <=? z) && (z <=? 102) then Some (Zbyte (z - 97 + 10))
  else if (65 <=? z) && (z <=? 70) then Some (Zbyte (z - 65 + 10))
  else None.

(** [hex.Decode]: the bytes of the pairs of characters read before the
    first character that is not hexadecimal; a last character without a
    partner is dropped. *)
Fixpoint Decode (src : list byte) : list byte :=
  match src with
  | p :: q :: rest =>
      match fromHexChar p, fromHexChar q with
      | Some a, Some b =>
          Zbyte (Z.lor (Z.shiftl (byteZ a) 4) (byteZ b)) :: Decode rest
      | _, _ => []
      end
  | _ => []
  end.

(** [hex.DecodeString(s)], its error dropped as [Hex2Bytes] drops it. *)
Definition DecodeString (s : string) : list byte :=
  Decode (String.list_byte_of_string s).

(** Modelled from the spec: [FromHex] of common/bytes.go, which is not part
    of the sources at hand. Section 4.1: [fromHex(s)] accepts an optional
    [0x] or [0X] prefix and reduces to [fromBytes] of the bytes the
    hexadecimal text denotes. *)
Definition FromHex (s : string) : list byte :=
  match s with
  | String "0" (String "x" rest) => DecodeString rest
  | String "0" (String "X" rest) => DecodeString rest
  | _ => DecodeString s
  end.

(** [func HexToAddress(s string) Address] *)
Definition HexToAddress (s : string) : Address := BytesToAddress (FromHex s).

(** [func HexToHash(s string) Hash] *)
Definition HexToHash (s : string) : Hash := BytesToHash (FromHex s).

(** [strings.ToLower] on text of 8-bit characters: the letters [A] to [Z]
    move to [a] to [z]. *)
Definition lower (c : byte) : byte :=
  let z := byteZ c in
  if (65 <=? z) && (z <=? 90) then Zbyte (z + 32) else c.

Definition ToLower (s : string) : string :=
  String.string_of_list_byte (lower <$> String.list_byte_of_string s).

(** The upper-case form of a letter [a] to [z]; other characters are their
    own. *)
Definition upper (c : byte) : byte :=
  let z := byteZ c in
  if (97 <=? z) && (z <=? 122) then Zbyte (z - 32) else c.

(** [c] is one of [a] to [f]. *)
Definition is_hex_letter (c : byte) : bool :=
  (97 <=? byteZ c) && (byteZ c <=? 102).

(** [c] is one of [0] to [9]. *)
Definition is_digit (c : byte) : bool :=
  (48 <=? byteZ c) && (byteZ c <=? 57).

(** The nibble of [hash] that decides the case of character [i]: the high
    half of byte [i/2] when [i] is even, its low half when [i] is odd. *)
Definition hash_nibble (hash : list byte) (i : nat) : Z :=
  let b := byteZ (hash !!! (i / 2)%nat) in
  if Nat.even i then b / 16 else b mod 16.

Section Checksum.

(** [sha3.NewKeccak256()], [Write] and [Sum(nil)]: the hash of crypto/sha3,
    a function from the bytes written to the 32 bytes of the digest. *)
Variable Keccak256 : list byte -> list byte.

(** One turn of the loop of [Hex] at index [i]. *)
Definition Hex_step (hash : list byte) (result : list byte) (i : nat)
  : list byte :=
  let hashByte := hash !!! (i / 2)%nat in
  let hashByte := if (i mod 2 =? 0)%nat
                  then Zbyte (Z.shiftr (byteZ hashByte) 4)
                  else Zbyte (Z.land (byteZ hashByte) 15) in
  if (byteZ (result !!! i) >? 57) && (byteZ hashByte >? 7)
  then <[i := Zbyte (byteZ (result !!! i) - 32)]> result
  else result.

(** [func (a Address) Hex() string] *)
Definition Address_Hex (a : Address) : string :=
  let unchecksummed := EncodeToString a in
  let hash := Keccak256 (String.list_byte_of_string unchecksummed) in
  let result := String.list_byte_of_string unchecksummed in
  let result := fold_left (Hex_step hash) (seq 0 (length result)) result in
  "0x" +:+ String.string_of_list_byte result.

End Checksum.

(** What the loop of [Hex] makes of the character [c] at index [i]. *)
Definition Hex_char (hash : list byte) (i : nat) (c : byte) : byte :=
  if (byteZ c >? 57) && (hash_nibble hash i >? 7)
  then Zbyte (byteZ c - 32) else c.

(** [c] is a character of lower-case hexadecimal text. *)
Definition is_lower_hex (c : byte) : bool := is_digit c || is_hex_letter c.

(** [p] is [d] or, for a letter [d], its upper-case form. *)
Definition same_hex (d p : byte) : Prop :=
  p = d \/ (is_hex_letter d = true /\ p = upper d).

(** ** Identifiers as integers and as database values *)

(** [new(big.Int).SetBytes(buf)] of math/big: [buf] read as a big-endian
    unsigned integer. *)
Definition big_SetBytes (buf : list byte) : Z :=
  fold_left (fun acc b => acc * 256 + byteZ b) buf 0.

(** The big-endian bytes of [z >= 0] without a leading zero byte, at most
    [n] of them. *)
Fixpoint big_Bytes_upto (n : nat) (z : Z) : list byte :=
  match n with
  | O => []
  | S n' =>
      if z =? 0 then []
      else big_Bytes_upto n' (z / 256) ++ [Zbyte (z mod 256)]
  end.

(** [x.Bytes()] of math/big: the absolute value of [x], big-endian, no
    leading zero byte; a number of [k] bits has at most [k] bytes. *)
Definition big_Bytes (x : Z) : list byte :=
  big_Bytes_upto (S (Z.to_nat (Z.log2 (Z.abs x)))) (Z.abs x).

(** [func BigToHash(b *big.Int) Hash] *)
Definition BigToHash (b : Z) : Hash := BytesToHash (big_Bytes b).

(** [func (h Hash) Big() *big.Int] *)
Definition Hash_Big (h : Hash) : Z := big_SetBytes h.

(** [func BigToAddress(b *big.Int) Address] *)
Definition BigToAddress (b : Z) : Address := BytesToAddress (big_Bytes b).

(** [func (a Address) Big() *big.Int] *)
Definition Address_Big (a : Address) : Z := big_SetBytes a.

(** The [src interface{}] of [Scan]: a [[]byte], or a value of another
    dynamic type, known by the name [%T] prints. *)
Inductive driver_Value : Type :=
| VBytes (b : list byte)
| VOther (typeName : string).

(** [func (h *Hash) Scan(src interface{}) error]: the hash afterwards and
    the error. *)
Definition Hash_Scan (h : Hash) (src : driver_Value) : Hash * error :=
  match src with
  | VOther typeName =>
      (h, Errorf ("can't scan " +:+ typeName +:+ " into Hash"))
  | VBytes srcB =>
      if negb (length srcB =? HashLength)%nat then
        (h, Errorf ("can't scan []byte of len " +:+ pretty (length srcB)
                    +:+ " into Hash, want " +:+ pretty HashLength))
      else (copy h srcB, nil_error)
  end.

(** [func (h Hash) Value() (driver.Value, error)] *)
Definition Hash_Value (h : Hash) : driver_Value * error :=
  (VBytes h, nil_error).

(** [func (a *Address) Scan(src interface{}) error] *)
Definition Address_Scan (a : Address) (src : driver_Value) : Address * error :=
  match src with
  | VOther typeName =>
      (a, Errorf ("can't scan " +:+ typeName +:+ " into Address"))
  | VBytes srcB =>
      if negb (length srcB =? AddressLength)%nat then
        (a, Errorf ("can't scan []byte of len " +:+ pretty (length srcB)
                    +:+ " into Address, want " +:+ pretty AddressLength))
      else (copy a srcB, nil_error)
  end.

(** [func (a Address) Value() (driver.Value, error)] *)
Definition Address_Value (a : Address) : driver_Value * error :=
  (VBytes a, nil_error).

(** * Properties *)

(** ** Comparisons of the validation gate *)

Lemma Cmp_le0 (x y : Z) : (Cmp x y <=? 0) = true <-> x <= y.
Proof.
  unfold Cmp. destruct (Z.compare_spec x y); rewrite Z.leb_le; lia.
Qed.

Lemma Cmp_lt0 (x y : Z) : (Cmp x y <? 0) = true <-> x < y.
Proof.
  unfold Cmp. destruct (Z.compare_spec x y); rewrite Z.ltb_lt; lia.
Qed.

Lemma Cmp_gt0 (x y : Z) : (Cmp x y >? 0) = true <-> x > y.
Proof.
  unfold Cmp. destruct (Z.compare_spec x y); rewrite Z.gtb_gt; lia.
Qed.

Lemma nil_or_le0_true (p : option Z) :
  nil_or_le0 p = true <-> p = None \/ exists v, p = Some v /\ v <= 0.
Proof.
  destruct p as [v|]; simpl.
  - rewrite Cmp_le0. unfold Big0. split.
    + intros H. right. exists v. split; [reflexivity | lia].
    + intros [H | (w & H & Hw)]; [discriminate | ]. injection H as ->. exact Hw.
  - split; [left; reflexivity | reflexivity].
Qed.

Lemma nil_or_le0_false (p : option Z) :
  nil_or_le0 p = false <-> exists v, p = Some v /\ v > 0.
Proof.
  rewrite <- not_true_iff_false, nil_or_le0_true. destruct p as [v|].
  - split.
    + intros H. exists v. split; [reflexivity | ].
      destruct (Z_le_gt_dec v 0) as [Hle | Hgt]; [ | exact Hgt].
      exfalso. apply H. right. exists v. split; [reflexivity | exact Hle].
    + intros (w & Hw & Hpos) [H | (u & Hu & Hle)]; [discriminate | ].
      injection Hw as ->. injection Hu as ->. lia.
  - split.
    + intros H. exfalso. apply H. left. reflexivity.
    + intros (w & Hw & _). discriminate.
Qed.

Lemma nil_or_lt0_true (p : option Z) :
  nil_or_lt0 p = true <-> p = None \/ exists v, p = Some v /\ v < 0.
Proof.
  destruct p as [v|]; simpl.
  - rewrite Cmp_lt0. unfold Big0. split.
    + intros H. right. exists v. split; [reflexivity | lia].
    + intros [H | (w & H & Hw)]; [discriminate | ]. injection H as ->. exact Hw.
  - split; [left; reflexivity | reflexivity].
Qed.

Lemma len_0 (s : string) : (len s =? 0) = true <-> s = "".
Proof.
  unfold len. rewrite Z.eqb_eq. destruct s; simpl; split; intros H;
    try reflexivity; try discriminate; lia.
Qed.

(** Turns the boolean tests of a [Check] in the context into facts on
    integers. *)
Ltac tests_to_Z :=
  repeat match goal with
  | H : (_ || _) = true |- _ => apply orb_true_iff in H; destruct H as [H | H]
  | H : (_ || _) = false |- _ =>
      apply orb_false_iff in H; let H' := fresh H in destruct H as [H H']
  | H : negb _ = true |- _ => apply negb_true_iff in H
  | H : negb _ = false |- _ => apply negb_false_iff in H
  | H : (Cmp _ _ <=? 0) = true |- _ => apply Cmp_le0 in H
  | H : (Cmp _ _ <=? 0) = false |- _ =>
      apply not_true_iff_false in H; rewrite Cmp_le0 in H
  | H : (Cmp _ _ >? 0) = true |- _ => apply Cmp_gt0 in H
  | H : (Cmp _ _ >? 0) = false |- _ =>
      apply not_true_iff_false in H; rewrite Cmp_gt0 in H
  | H : (_ >? _) = true |- _ => apply Z.gtb_gt in H
  | H : (_ >? _) = false |- _ => rewrite Z.gtb_ltb in H
  | H : (_ <? _) = true |- _ => apply Z.ltb_lt in H
  | H : (_ <? _) = false |- _ => apply Z.ltb_ge in H
  | H : (_ <=? _) = true |- _ => apply Z.leb_le in H
  | H : (_ <=? _) = false |- _ => apply Z.leb_gt in H
  | H : (_ =? _) = true |- _ => apply Z.eqb_eq in H
  | H : (_ =? _) = false |- _ => apply Z.eqb_neq in H
  end.

(** ** Asset issuance *)

Lemma GenAssetParam_Check_fails (p : GenAssetParam.t) (blockNumber : option Z) :
  GenAssetParam.Check p blockNumber <> nil_error <-> GenAssetParam.fails p.
Proof.
  unfold GenAssetParam.Check, GenAssetParam.fails.
  destruct (len (GenAssetParam.Name p) =? 0) eqn:Hn.
  { apply len_0 in Hn. simpl. split; [intros _; left; exact Hn | discriminate]. }
  destruct (len (GenAssetParam.Symbol p) =? 0) eqn:Hs.
  { apply len_0 in Hs. simpl.
    split; [intros _; right; left; exact Hs | discriminate]. }
  destruct (nil_or_lt0 (GenAssetParam.Total p)) eqn:Ht.
  { apply nil_or_lt0_true in Ht. simpl.
    split; [intros _; destruct Ht; tauto | discriminate]. }
  simpl.
  assert (Hn' : GenAssetParam.Name p <> "").
  { intros E. apply len_0 in E. congruence. }
  assert (Hs' : GenAssetParam.Symbol p <> "").
  { intros E. apply len_0 in E. congruence. }
  assert (Ht' : ~ (GenAssetParam.Total p = None \/
                   exists v, GenAssetParam.Total p = Some v /\ v < 0)).
  { intros E. apply nil_or_lt0_true in E. congruence. }
  destruct (GenAssetParam.Decimals p >? 18) eqn:Hd;
    [tests_to_Z; split; [intros _; tauto | discriminate] | ].
  destruct (len (GenAssetParam.Description p) >? 1024) eqn:Hl;
    [tests_to_Z; split; [intros _; tauto | discriminate] | ].
  destruct (len (GenAssetParam.Name p) >? 128) eqn:Hln;
    [tests_to_Z; split; [intros _; tauto | discriminate] | ].
  destruct (len (GenAssetParam.Symbol p) >? 64) eqn:Hls;
    [tests_to_Z; split; [intros _; tauto | discriminate] | ].
  tests_to_Z. split; [intros H; exfalso; apply H; reflexivity | ].
  intros [H | [H | [H | [H | [H | [H | [H | H]]]]]]]; try contradiction;
    try lia; exfalso; apply Ht'; tauto.
Qed.

(** C1, as the code has it: [GenAssetParam.Check] fails if and only if
    [Name] or [Symbol] is empty, [Total] is unset or negative,
    [Decimals > 18], the description is longer than 1024 bytes, the name
    longer than 128 or the symbol longer than 64. With name [X], symbol
    [X], 18 decimals and a description within its bound, a total of 1
    succeeds, and so does a total of 0. *)
Theorem GenAssetParam_Check_spec :
  (forall (p : GenAssetParam.t) (blockNumber : option Z),
     GenAssetParam.Check p blockNumber <> nil_error <-> GenAssetParam.fails p) /\
  (forall (canChange : bool) (description : string) (blockNumber : option Z),
     len description <= 1024 ->
     GenAssetParam.Check
       (GenAssetParam.mk "X" "X" 18 (Some 1) canChange description)
       blockNumber = nil_error /\
     GenAssetParam.Check
       (GenAssetParam.mk "X" "X" 18 (Some 0) canChange description)
       blockNumber = nil_error).
Proof.
  split; [exact GenAssetParam_Check_fails | ].
  intros canChange description blockNumber Hd.
  unfold GenAssetParam.Check; simpl.
  destruct (len description >? 1024) eqn:E; [tests_to_Z; lia | ].
  split; reflexivity.
Qed.

Lemma GenAssetParam_Check_spec_witness :
  GenAssetParam.Check (GenAssetParam.mk "X" "X" 18 (Some 1) false "") None
  = nil_error /\
  GenAssetParam.Check (GenAssetParam.mk "X" "X" 18 (Some 0) false "") None
  = nil_error.
Proof.
  apply (proj2 GenAssetParam_Check_spec false "" None).
  unfold len; simpl; lia.
Defined.

(** C1 as the specification states it fails on a total of zero: the
    stated condition ([Total <= 0]) holds and [Check] returns nil. *)
Lemma GenAssetParam_Check_total_zero :
  GenAssetParam.spec_fails (GenAssetParam.mk "X" "X" 18 (Some 0) false "") /\
  GenAssetParam.Check (GenAssetParam.mk "X" "X" 18 (Some 0) false "") None
  = nil_error.
Proof.
  split; [ | reflexivity].
  unfold GenAssetParam.spec_fails; simpl.
  right; right; right; left. exists 0. split; [reflexivity | lia].
Qed.

(** ** Ticket purchase *)

(** The [uint64] view of an [int64] sum is the sum modulo [2^64]. *)
Lemma u64_i64 (z : Z) : u64 (i64 z) = u64 z.
Proof.
  unfold u64, i64.
  rewrite <- (Z.add_opp_r _ (2 ^ 63)), Zplus_mod_idemp_l.
  f_equal. lia.
Qed.

Lemma u64_add_u64 (x y : Z) : u64 (x + u64 y) = u64 (x + y).
Proof. unfold u64. apply Zplus_mod_idemp_r. Qed.

(** The three sums of [BuyTicketParam.Check], whatever their size. *)
Lemma BuyTicketParam_Check_mod (p : BuyTicketParam.t) (blockNumber : option Z)
  (timestamp adjust : Z) :
  BuyTicketParam.Check p blockNumber timestamp adjust <> nil_error <->
  BuyTicketParam.End_ p <= BuyTicketParam.Start p \/
  BuyTicketParam.End_ p < (BuyTicketParam.Start p + 30 * 86400) mod 2 ^ 64 \/
  (timestamp <> 0 /\
   (BuyTicketParam.Start p > (timestamp + 3 * 3600) mod 2 ^ 64 \/
    BuyTicketParam.End_ p < (timestamp + 7 * 86400 + adjust) mod 2 ^ 64)).
Proof.
  unfold BuyTicketParam.Check.
  rewrite u64_i64, u64_add_u64. unfold u64.
  replace (timestamp + (7 * 24 * 3600 + adjust))
    with (timestamp + 7 * 86400 + adjust) by lia.
  replace (30 * 24 * 3600) with (30 * 86400) by lia.
  destruct (BuyTicketParam.End_ p <=? BuyTicketParam.Start p) eqn:H1;
    [tests_to_Z; simpl; split; [intros _; tauto | discriminate] | ].
  destruct (BuyTicketParam.End_ p <? _) eqn:H2;
    [tests_to_Z; simpl; split; [intros _; tauto | discriminate] | ].
  simpl.
  destruct (timestamp =? 0) eqn:H3; simpl.
  { tests_to_Z. split; [intros H; exfalso; apply H; reflexivity | ].
    intros [H | [H | [H _]]]; [lia | lia | contradiction]. }
  destruct (BuyTicketParam.Start p >? _) eqn:H4;
    [tests_to_Z; split; [intros _; tauto | discriminate] | ].
  destruct (BuyTicketParam.End_ p <? (timestamp + 7 * 86400 + adjust) mod _) eqn:H5;
    [tests_to_Z; split; [intros _; tauto | discriminate] | ].
  tests_to_Z. split; [intros H; exfalso; apply H; reflexivity | ].
  intros [H | [H | [_ [H | H]]]]; lia.
Qed.

(** C2, as the code has it: where [Start + 30 days] and
    [blockTimestamp + 3 hours] stay below [2^64] and
    [blockTimestamp + 7 days + adjustSeconds] stays within [0] and [2^64],
    [BuyTicketParam.Check] fails if and only if [End <= Start], or
    [End < Start + 30 days], or [blockTimestamp != 0] and either
    [Start > blockTimestamp + 3 hours] or
    [End < blockTimestamp + 7 days + adjustSeconds]. At the boundary
    [End = Start + 30*86400] it succeeds when [blockTimestamp = 0], and one
    second short of it it fails. *)
Theorem BuyTicketParam_Check_spec (p : BuyTicketParam.t)
  (blockNumber : option Z) (timestamp adjust : Z) :
  BuyTicketParam.well_typed p timestamp adjust ->
  BuyTicketParam.no_overflow p timestamp adjust ->
  (BuyTicketParam.Check p blockNumber timestamp adjust <> nil_error <->
   BuyTicketParam.spec_fails p timestamp adjust) /\
  (BuyTicketParam.End_ p = BuyTicketParam.Start p + 30 * 86400 ->
   timestamp = 0 ->
   BuyTicketParam.Check p blockNumber timestamp adjust = nil_error) /\
  (BuyTicketParam.End_ p = BuyTicketParam.Start p + 30 * 86400 - 1 ->
   BuyTicketParam.Check p blockNumber timestamp adjust <> nil_error).
Proof.
  intros (Hs & He & Ht & Ha) (H30 & H3 & H7).
  unfold is_u64, is_i64 in *.
  assert (Hiff : BuyTicketParam.Check p blockNumber timestamp adjust <> nil_error
                 <-> BuyTicketParam.spec_fails p timestamp adjust).
  { rewrite BuyTicketParam_Check_mod. unfold BuyTicketParam.spec_fails.
    rewrite !Z.mod_small by lia. reflexivity. }
  split; [exact Hiff | split].
  - intros Hend ->.
    destruct (BuyTicketParam.Check p blockNumber 0 adjust) as [msg|] eqn:E;
      [ | reflexivity].
    exfalso.
    assert (Hf : BuyTicketParam.spec_fails p 0 adjust).
    { apply Hiff. discriminate. }
    unfold BuyTicketParam.spec_fails in Hf. lia.
  - intros Hend. apply Hiff. unfold BuyTicketParam.spec_fails. lia.
Qed.

Lemma BuyTicketParam_Check_spec_witness :
  BuyTicketParam.Check (BuyTicketParam.mk 1000 (1000 + 30 * 86400)) None 0 0
  = nil_error.
Proof.
  apply (BuyTicketParam_Check_spec
           (BuyTicketParam.mk 1000 (1000 + 30 * 86400)) None 0 0).
  - unfold BuyTicketParam.well_typed, is_u64, is_i64; simpl; lia.
  - unfold BuyTicketParam.no_overflow; simpl; lia.
  - reflexivity.
  - reflexivity.
Defined.

(** C2 as the specification states it fails where [Start + 30 days]
    leaves the range of [uint64]: the lifetime below is one second short of
    thirty days, and [Check] returns nil. *)
Lemma BuyTicketParam_Check_wraps :
  BuyTicketParam.well_typed
    (BuyTicketParam.mk (2 ^ 64 - 30 * 86400) (2 ^ 64 - 1)) 0 0 /\
  BuyTicketParam.spec_fails
    (BuyTicketParam.mk (2 ^ 64 - 30 * 86400) (2 ^ 64 - 1)) 0 0 /\
  BuyTicketParam.Check
    (BuyTicketParam.mk (2 ^ 64 - 30 * 86400) (2 ^ 64 - 1)) None 0 0
  = nil_error.
Proof.
  split; [ | split].
  - unfold BuyTicketParam.well_typed, is_u64, is_i64; simpl; lia.
  - unfold BuyTicketParam.spec_fails; simpl; lia.
  - vm_compute. reflexivity.
Qed.

(** ** Swaps *)

Lemma TakeSwapParam_Check_succeeds (p : TakeSwapParam.t)
  (blockNumber : option Z) (swap : Swap.t) (timestamp : Z) :
  TakeSwapParam.Check p blockNumber swap timestamp = nil_error <->
  TakeSwapParam.spec_succeeds p swap timestamp.
Proof.
  unfold TakeSwapParam.Check, TakeSwapParam.spec_succeeds, Mul, Big0.
  split.
  - destruct (TakeSwapParam.Size p) as [size|]; [ | discriminate].
    destruct (Cmp size 0 <=? 0) eqn:H1; [discriminate | ].
    destruct (Swap.SwapSize swap) as [swapSize|]; [ | discriminate].
    destruct (Cmp size swapSize >? 0) eqn:H2; [discriminate | ].
    destruct (Swap.MinFromAmount swap) as [minFrom|]; [ | discriminate].
    destruct (Cmp minFrom 0 <=? 0) eqn:H3; [discriminate | ].
    destruct (Swap.MinToAmount swap) as [minTo|]; [ | discriminate].
    destruct (Cmp minTo 0 <=? 0) eqn:H4; [discriminate | ].
    destruct (Cmp (minFrom * size) 0 <=? 0) eqn:H5; [discriminate | ].
    destruct (Cmp (minTo * size) 0 <=? 0) eqn:H6; [discriminate | ].
    destruct (Swap.FromEndTime swap <=? timestamp) eqn:H7; [discriminate | ].
    destruct (Swap.ToEndTime swap <=? timestamp) eqn:H8; [discriminate | ].
    intros _. tests_to_Z. exists size, swapSize, minFrom, minTo.
    repeat split; try reflexivity; lia.
  - intros (size & swapSize & minFrom & minTo & -> & -> & -> & -> & Hs & Hf
            & Ht & Hft & Htt & Hfe & Hte).
    destruct (Cmp size 0 <=? 0) eqn:H1; [tests_to_Z; lia | ].
    destruct (Cmp size swapSize >? 0) eqn:H2; [tests_to_Z; lia | ].
    destruct (Cmp minFrom 0 <=? 0) eqn:H3; [tests_to_Z; lia | ].
    destruct (Cmp minTo 0 <=? 0) eqn:H4; [tests_to_Z; lia | ].
    destruct (Cmp (minFrom * size) 0 <=? 0) eqn:H5; [tests_to_Z; lia | ].
    destruct (Cmp (minTo * size) 0 <=? 0) eqn:H6; [tests_to_Z; lia | ].
    destruct (Swap.FromEndTime swap <=? timestamp) eqn:H7; [tests_to_Z; lia | ].
    destruct (Swap.ToEndTime swap <=? timestamp) eqn:H8; [tests_to_Z; lia | ].
    reflexivity.
Qed.

(** C5: [TakeSwapParam.Check] succeeds if and only if
    [0 < Size <= swap.SwapSize], [swap.MinFromAmount > 0],
    [swap.MinToAmount > 0], both products with [Size] are positive, and
    both end times of the swap are later than [blockTimestamp]. For a swap
    of size 10 that is otherwise in order, taking 10 succeeds; taking 11 or
    0 fails whatever the rest of the swap. *)
Theorem TakeSwapParam_Check_spec :
  (forall (p : TakeSwapParam.t) (blockNumber : option Z) (swap : Swap.t)
          (timestamp : Z),
     TakeSwapParam.Check p blockNumber swap timestamp = nil_error <->
     TakeSwapParam.spec_succeeds p swap timestamp) /\
  (forall (id : Hash) (blockNumber : option Z) (swap : Swap.t)
          (timestamp minFrom minTo : Z),
     Swap.SwapSize swap = Some 10 ->
     Swap.MinFromAmount swap = Some minFrom -> minFrom > 0 ->
     Swap.MinToAmount swap = Some minTo -> minTo > 0 ->
     Swap.FromEndTime swap > timestamp -> Swap.ToEndTime swap > timestamp ->
     TakeSwapParam.Check (TakeSwapParam.mk id (Some 10)) blockNumber swap
       timestamp = nil_error) /\
  (forall (id : Hash) (blockNumber : option Z) (swap : Swap.t) (timestamp : Z),
     Swap.SwapSize swap = Some 10 ->
     TakeSwapParam.Check (TakeSwapParam.mk id (Some 11)) blockNumber swap
       timestamp <> nil_error /\
     TakeSwapParam.Check (TakeSwapParam.mk id (Some 0)) blockNumber swap
       timestamp <> nil_error).
Proof.
  split; [exact TakeSwapParam_Check_succeeds | split].
  - intros id blockNumber swap timestamp minFrom minTo Hs Hf Hfp Ht Htp Hfe Hte.
    apply TakeSwapParam_Check_succeeds.
    exists 10, 10, minFrom, minTo. simpl. repeat split; try assumption; lia.
  - intros id blockNumber swap timestamp Hs.
    split; rewrite TakeSwapParam_Check_succeeds;
      intros (size & swapSize & minFrom & minTo & Hsz & Hss & _ & _ & Hr & _);
      simpl in Hsz; injection Hsz as <-; rewrite Hs in Hss;
      injection Hss as <-; lia.
Qed.

Lemma TakeSwapParam_Check_spec_witness :
  TakeSwapParam.Check (TakeSwapParam.mk Hash_zero (Some 10)) None
    (Swap.mk Hash_zero Address_zero Hash_zero 0 2000 (Some 100)
       Hash_zero 0 2000 (Some 50) (Some 10) [] (Some 0) "")
    1000 = nil_error.
Proof.
  apply (proj1 (proj2 TakeSwapParam_Check_spec) Hash_zero None
           (Swap.mk Hash_zero Address_zero Hash_zero 0 2000 (Some 100)
              Hash_zero 0 2000 (Some 50) (Some 10) [] (Some 0) "")
           1000 100 50); simpl; try reflexivity; lia.
Defined.

Lemma MakeSwapParam_Check_fails (p : MakeSwapParam.t) (blockNumber : option Z)
  (timestamp : Z) :
  MakeSwapParam.Check p blockNumber timestamp <> nil_error <->
  MakeSwapParam.spec_fails p timestamp.
Proof.
  unfold MakeSwapParam.Check, MakeSwapParam.spec_fails,
    MakeSwapParam.unset_or_le0, Mul, Big0.
  destruct (MakeSwapParam.MinFromAmount p) as [a|];
    [ | split; [intros _; left; left; reflexivity | discriminate]].
  destruct (MakeSwapParam.MinToAmount p) as [b|];
    [ | split; [intros _; right; left; left; reflexivity | discriminate]].
  destruct (MakeSwapParam.SwapSize p) as [s|];
    [ | split; [intros _; right; right; left; left; reflexivity | discriminate]].
  destruct (Cmp a 0 <=? 0) eqn:H1.
  { tests_to_Z. simpl. split; [intros _ | discriminate].
    left. right. exists a. split; [reflexivity | exact H1]. }
  destruct (Cmp b 0 <=? 0) eqn:H2.
  { tests_to_Z. simpl. split; [intros _ | discriminate].
    right. left. right. exists b. split; [reflexivity | exact H2]. }
  destruct (Cmp s 0 <=? 0) eqn:H3.
  { tests_to_Z. simpl. split; [intros _ | discriminate].
    right. right. left. right. exists s. split; [reflexivity | exact H3]. }
  simpl.
  destruct (len (MakeSwapParam.Description p) >? 1024) eqn:H4;
    [tests_to_Z; split; [intros _; tauto | discriminate] | ].
  destruct (Cmp (a * s) 0 <=? 0) eqn:H5.
  { tests_to_Z. split; [intros _ | discriminate].
    do 4 right. left. exists a, s. repeat split. exact H5. }
  destruct (MakeSwapParam.FromStartTime p >? MakeSwapParam.FromEndTime p) eqn:H6;
    [tests_to_Z; split; [intros _; tauto | discriminate] | ].
  destruct (MakeSwapParam.ToStartTime p >? MakeSwapParam.ToEndTime p) eqn:H7;
    [tests_to_Z; split; [intros _; tauto | discriminate] | ].
  destruct (MakeSwapParam.FromEndTime p <=? timestamp) eqn:H8;
    [tests_to_Z; split; [intros _; tauto | discriminate] | ].
  destruct (MakeSwapParam.ToEndTime p <=? timestamp) eqn:H9;
    [tests_to_Z; split; [intros _; tauto | discriminate] | ].
  tests_to_Z. split; [intros H; exfalso; apply H; reflexivity | ].
  intros [[H | (v & Hv & H)] | [[H | (v & Hv & H)] | [[H | (v & Hv & H)] |
          [H | [(a' & s' & Ha & Hs & H) | [H | [H | [H | H]]]]]]]];
    try discriminate; try lia.
  - injection Hv as <-. lia.
  - injection Hv as <-. lia.
  - injection Hv as <-. lia.
  - injection Ha as <-. injection Hs as <-. lia.
Qed.

(** C6: [MakeSwapParam.Check] fails if and only if one of
    [MinFromAmount], [MinToAmount], [SwapSize] is unset or not positive, or
    the description is longer than 1024 bytes, or
    [MinFromAmount * SwapSize <= 0], or a start time is later than its end
    time, or an end time is not later than [blockTimestamp]. So an offer
    with positive amounts and both end times later than [blockTimestamp],
    with nothing else of the list wrong, succeeds; the offer of the
    specification (amounts 100 and 100, size 10, the other fields at their
    zero values) is one. *)
Theorem MakeSwapParam_Check_spec :
  (forall (p : MakeSwapParam.t) (blockNumber : option Z) (timestamp : Z),
     MakeSwapParam.Check p blockNumber timestamp <> nil_error <->
     MakeSwapParam.spec_fails p timestamp) /\
  (forall (p : MakeSwapParam.t) (blockNumber : option Z) (timestamp : Z)
          (minFrom minTo size : Z),
     MakeSwapParam.MinFromAmount p = Some minFrom -> minFrom > 0 ->
     MakeSwapParam.MinToAmount p = Some minTo -> minTo > 0 ->
     MakeSwapParam.SwapSize p = Some size -> size > 0 ->
     len (MakeSwapParam.Description p) <= 1024 ->
     MakeSwapParam.FromStartTime p <= MakeSwapParam.FromEndTime p ->
     MakeSwapParam.ToStartTime p <= MakeSwapParam.ToEndTime p ->
     MakeSwapParam.FromEndTime p > timestamp ->
     MakeSwapParam.ToEndTime p > timestamp ->
     MakeSwapParam.Check p blockNumber timestamp = nil_error) /\
  (forall (blockNumber : option Z) (timestamp E1 E2 : Z),
     is_u64 timestamp ->
     let p := MakeSwapParam.mk Hash_zero 0 E1 (Some 100) Hash_zero 0 E2
                (Some 100) (Some 10) [] None "" in
     (E1 > timestamp -> E2 > timestamp ->
      MakeSwapParam.Check p blockNumber timestamp = nil_error) /\
     (E1 <= timestamp \/ E2 <= timestamp ->
      MakeSwapParam.Check p blockNumber timestamp <> nil_error)).
Proof.
  assert (Hok : forall (p : MakeSwapParam.t) (blockNumber : option Z)
                  (timestamp minFrom minTo size : Z),
     MakeSwapParam.MinFromAmount p = Some minFrom -> minFrom > 0 ->
     MakeSwapParam.MinToAmount p = Some minTo -> minTo > 0 ->
     MakeSwapParam.SwapSize p = Some size -> size > 0 ->
     len (MakeSwapParam.Description p) <= 1024 ->
     MakeSwapParam.FromStartTime p <= MakeSwapParam.FromEndTime p ->
     MakeSwapParam.ToStartTime p <= MakeSwapParam.ToEndTime p ->
     MakeSwapParam.FromEndTime p > timestamp ->
     MakeSwapParam.ToEndTime p > timestamp ->
     MakeSwapParam.Check p blockNumber timestamp = nil_error).
  { intros p blockNumber timestamp a b s Ha Hap Hb Hbp Hs Hsp Hd Hf Ht Hfe Hte.
    destruct (MakeSwapParam.Check p blockNumber timestamp) as [msg|] eqn:E;
      [ | reflexivity].
    exfalso.
    assert (Hfail : MakeSwapParam.spec_fails p timestamp).
    { apply (MakeSwapParam_Check_fails p blockNumber). rewrite E. discriminate. }
    unfold MakeSwapParam.spec_fails, MakeSwapParam.unset_or_le0 in Hfail.
    rewrite Ha, Hb, Hs in Hfail.
    destruct Hfail as [[H | (v & Hv & H)] | [[H | (v & Hv & H)] |
          [[H | (v & Hv & H)] |
          [H | [(a' & s' & Ha' & Hs' & H) | [H | [H | [H | H]]]]]]]];
      try discriminate; try lia.
    - injection Hv as <-. lia.
    - injection Hv as <-. lia.
    - injection Hv as <-. lia.
    - injection Ha' as <-. injection Hs' as <-. nia. }
  split; [exact MakeSwapParam_Check_fails | split; [exact Hok | ]].
  intros blockNumber timestamp E1 E2 Hts p. unfold is_u64 in Hts. split.
  - intros H1 H2.
    apply (Hok p blockNumber timestamp 100 100 10); subst p; simpl;
      try reflexivity; unfold len; simpl; lia.
  - intros H. apply MakeSwapParam_Check_fails.
    unfold MakeSwapParam.spec_fails. subst p; simpl. tauto.
Qed.

Lemma MakeSwapParam_Check_spec_witness :
  MakeSwapParam.Check
    (MakeSwapParam.mk Hash_zero 0 2000 (Some 100) Hash_zero 0 3000
       (Some 100) (Some 10) [] None "")
    None 1000 = nil_error.
Proof.
  apply (proj1 (proj2 MakeSwapParam_Check_spec)
           (MakeSwapParam.mk Hash_zero 0 2000 (Some 100) Hash_zero 0 3000
              (Some 100) (Some 10) [] None "")
           None 1000 100 100 10); simpl; try reflexivity;
    unfold len; simpl; lia.
Defined.

(** ** Transfer, time lock and value change *)

(** C8: each of the four [Check] methods fails unless [Value] is set and
    strictly positive. Beyond that, [SendAssetParam.Check] succeeds exactly
    when the receiver is not the zero address, [TimeLockParam.Check]
    exactly when [StartTime <= EndTime] and [EndTime >= blockTimestamp],
    [AssetValueChangeParam.Check] always, and
    [AssetValueChangeExParam.Check] exactly when [TransacData] has at most
    256 bytes. *)
Theorem Value_Check_spec :
  (forall (p : SendAssetParam.t) (blockNumber : option Z),
     SendAssetParam.Check p blockNumber = nil_error <->
     (exists v, SendAssetParam.Value p = Some v /\ v > 0) /\
     SendAssetParam.To p <> Address_zero) /\
  (forall (p : TimeLockParam.t) (blockNumber : option Z) (timestamp : Z),
     TimeLockParam.Check p blockNumber timestamp = nil_error <->
     (exists v, TimeLockParam.Value p = Some v /\ v > 0) /\
     TimeLockParam.StartTime p <= TimeLockParam.EndTime p /\
     TimeLockParam.EndTime p >= timestamp) /\
  (forall (p : AssetValueChangeParam.t) (blockNumber : option Z),
     AssetValueChangeParam.Check p blockNumber = nil_error <->
     exists v, AssetValueChangeParam.Value p = Some v /\ v > 0) /\
  (forall (p : AssetValueChangeExParam.t) (blockNumber : option Z),
     AssetValueChangeExParam.Check p blockNumber = nil_error <->
     (exists v, AssetValueChangeExParam.Value p = Some v /\ v > 0) /\
     len (AssetValueChangeExParam.TransacData p) <= 256).
Proof.
  repeat split.
  - unfold SendAssetParam.Check in H.
    destruct (nil_or_le0 (SendAssetParam.Value p)) eqn:E; [discriminate | ].
    apply nil_or_le0_false in E. exact E.
  - unfold SendAssetParam.Check in H.
    destruct (nil_or_le0 (SendAssetParam.Value p)); [discriminate | ].
    destruct (bool_decide (SendAssetParam.To p = Address_zero)) eqn:E;
      [discriminate | ].
    apply bool_decide_eq_false in E. exact E.
  - intros [Hv Hto]. unfold SendAssetParam.Check.
    apply nil_or_le0_false in Hv. rewrite Hv.
    rewrite (bool_decide_eq_false_2 _ Hto). reflexivity.
  - unfold TimeLockParam.Check in H.
    destruct (nil_or_le0 (TimeLockParam.Value p)) eqn:E; [discriminate | ].
    apply nil_or_le0_false in E. exact E.
  - unfold TimeLockParam.Check in H.
    destruct (nil_or_le0 (TimeLockParam.Value p)); [discriminate | ].
    destruct (TimeLockParam.StartTime p >? TimeLockParam.EndTime p) eqn:E;
      [discriminate | ].
    tests_to_Z. lia.
  - unfold TimeLockParam.Check in H.
    destruct (nil_or_le0 (TimeLockParam.Value p)); [discriminate | ].
    destruct (TimeLockParam.StartTime p >? TimeLockParam.EndTime p);
      [discriminate | ].
    destruct (TimeLockParam.EndTime p <? timestamp) eqn:E; [discriminate | ].
    tests_to_Z. lia.
  - intros (Hv & Hs & He). unfold TimeLockParam.Check.
    apply nil_or_le0_false in Hv. rewrite Hv.
    destruct (TimeLockParam.StartTime p >? TimeLockParam.EndTime p) eqn:E1;
      [tests_to_Z; lia | ].
    destruct (TimeLockParam.EndTime p <? timestamp) eqn:E2;
      [tests_to_Z; lia | reflexivity].
  - unfold AssetValueChangeParam.Check.
    destruct (nil_or_le0 (AssetValueChangeParam.Value p)) eqn:E;
      [discriminate | ].
    intros _. apply nil_or_le0_false in E. exact E.
  - intros Hv. unfold AssetValueChangeParam.Check.
    apply nil_or_le0_false in Hv. rewrite Hv. reflexivity.
  - unfold AssetValueChangeExParam.Check in H.
    destruct (nil_or_le0 (AssetValueChangeExParam.Value p)) eqn:E;
      [discriminate | ].
    apply nil_or_le0_false in E. exact E.
  - unfold AssetValueChangeExParam.Check in H.
    destruct (nil_or_le0 (AssetValueChangeExParam.Value p)); [discriminate | ].
    destruct (len (AssetValueChangeExParam.TransacData p) >? 256) eqn:E;
      [discriminate | ].
    tests_to_Z. lia.
  - intros [Hv Hl]. unfold AssetValueChangeExParam.Check.
    apply nil_or_le0_false in Hv. rewrite Hv.
    destruct (len (AssetValueChangeExParam.TransacData p) >? 256) eqn:E;
      [tests_to_Z; lia | reflexivity].
Qed.

(** ** Construction of identifiers from bytes *)

(** Writing at most [n] bytes at the right end of [n] zero bytes. *)
Lemma copy_at_zero (n : nat) (b : list byte) :
  (length b <= n)%nat ->
  copy_at (replicate n x00) (n - length b) b = replicate (n - length b) x00 ++ b.
Proof.
  intros Hb. unfold copy_at, copy.
  rewrite take_replicate, drop_replicate, length_replicate.
  replace (n - (n - length b))%nat with (length b) by lia.
  rewrite Nat.min_l by lia.
  rewrite firstn_all, drop_replicate, Nat.sub_diag. simpl.
  rewrite app_nil_r. reflexivity.
Qed.

(** The crop of [SetBytes]: at most [n] bytes, the last ones. *)
Lemma crop_length (n : nat) (b : list byte) :
  (n < length b)%nat -> length (drop (length b - n) b) = n.
Proof. intros H. rewrite length_drop. lia. Qed.

Lemma BytesToAddress_eq (b : list byte) :
  BytesToAddress b =
  replicate (AddressLength - length b) x00 ++ drop (length b - AddressLength) b.
Proof.
  unfold BytesToAddress, Address_SetBytes, Address_zero.
  rewrite length_replicate. case_bool_decide as Hlen.
  - rewrite copy_at_zero by (rewrite crop_length; lia).
    rewrite crop_length by lia.
    replace (AddressLength - length b)%nat with 0%nat by lia.
    rewrite Nat.sub_diag. reflexivity.
  - rewrite copy_at_zero by lia.
    replace (length b - AddressLength)%nat with 0%nat by lia.
    reflexivity.
Qed.

Lemma BytesToHash_eq (b : list byte) :
  BytesToHash b =
  replicate (HashLength - length b) x00 ++ drop (length b - HashLength) b.
Proof.
  unfold BytesToHash, Hash_SetBytes, Hash_zero.
  rewrite length_replicate. case_bool_decide as Hlen.
  - rewrite copy_at_zero by (rewrite crop_length; lia).
    rewrite crop_length by lia.
    replace (HashLength - length b)%nat with 0%nat by lia.
    rewrite Nat.sub_diag. reflexivity.
  - rewrite copy_at_zero by lia.
    replace (length b - HashLength)%nat with 0%nat by lia.
    reflexivity.
Qed.

Lemma BytesToAddress_length (b : list byte) : is_Address (BytesToAddress b).
Proof.
  unfold is_Address. rewrite BytesToAddress_eq.
  rewrite length_app, length_replicate, length_drop. lia.
Qed.

Lemma BytesToHash_length (b : list byte) : is_Hash (BytesToHash b).
Proof.
  unfold is_Hash. rewrite BytesToHash_eq.
  rewrite length_app, length_replicate, length_drop. lia.
Qed.

(** An array of the right length is what [fromBytes] makes of its bytes. *)
Lemma BytesToAddress_id (a : Address) : is_Address a -> BytesToAddress a = a.
Proof.
  unfold is_Address. intros Ha. rewrite BytesToAddress_eq, Ha.
  rewrite Nat.sub_diag. reflexivity.
Qed.

Lemma BytesToHash_id (h : Hash) : is_Hash h -> BytesToHash h = h.
Proof.
  unfold is_Hash. intros Hh. rewrite BytesToHash_eq, Hh.
  rewrite Nat.sub_diag. reflexivity.
Qed.

(** C4: [BytesToAddress] and [BytesToHash] right-align their argument in
    20 and 32 bytes: the result has exactly that length, is the last 20
    (32) bytes of a longer argument and a shorter argument behind zero
    bytes, and building again from its bytes changes nothing. A 40-byte
    argument gives its last 20 bytes as an address, a 10-byte argument
    gives 10 zero bytes and the argument. *)
Theorem fromBytes_right_aligns (b : list byte) :
  (length (BytesToAddress b) = 20%nat /\
   ((20 < length b)%nat -> BytesToAddress b = drop (length b - 20) b) /\
   ((length b <= 20)%nat ->
    BytesToAddress b = replicate (20 - length b) x00 ++ b) /\
   (length b = 40%nat -> BytesToAddress b = drop 20 b) /\
   (length b = 10%nat -> BytesToAddress b = replicate 10 x00 ++ b) /\
   BytesToAddress (Address_Bytes (BytesToAddress b)) = BytesToAddress b) /\
  (length (BytesToHash b) = 32%nat /\
   ((32 < length b)%nat -> BytesToHash b = drop (length b - 32) b) /\
   ((length b <= 32)%nat ->
    BytesToHash b = replicate (32 - length b) x00 ++ b) /\
   BytesToHash (Hash_Bytes (BytesToHash b)) = BytesToHash b).
Proof.
  split.
  - split; [exact (BytesToAddress_length b) | ].
    unfold Address_Bytes.
    rewrite (BytesToAddress_id _ (BytesToAddress_length b)).
    rewrite BytesToAddress_eq. unfold AddressLength.
    repeat split.
    + intros H. replace (20 - length b)%nat with 0%nat by lia. reflexivity.
    + intros H. replace (length b - 20)%nat with 0%nat by lia. reflexivity.
    + intros ->. reflexivity.
    + intros H. rewrite H. reflexivity.
  - split; [exact (BytesToHash_length b) | ].
    unfold Hash_Bytes.
    rewrite (BytesToHash_id _ (BytesToHash_length b)).
    rewrite BytesToHash_eq. unfold HashLength.
    repeat split.
    + intros H. replace (32 - length b)%nat with 0%nat by lia. reflexivity.
    + intros H. replace (length b - 32)%nat with 0%nat by lia. reflexivity.
Qed.

Lemma fromBytes_right_aligns_witness :
  BytesToAddress (replicate 20 x11 ++ replicate 20 x22) = replicate 20 x22 /\
  BytesToAddress (replicate 10 x33) = replicate 10 x00 ++ replicate 10 x33.
Proof.
  split.
  - apply (proj1 (proj2 (proj2 (proj2 (proj1
             (fromBytes_right_aligns (replicate 20 x11 ++ replicate 20 x22))))))).
    reflexivity.
  - apply (proj1 (proj2 (proj2 (proj2 (proj2 (proj1
             (fromBytes_right_aligns (replicate 10 x33)))))))).
    reflexivity.
Defined.

(** ** Copies *)

Lemma fresh_unused (h : Store.heap) : h !! fresh (dom h) = None.
Proof. apply not_elem_of_dom. apply is_fresh. Qed.

Lemma alloc_keeps (h : Store.heap) (v : Z) (p : Store.ptr) :
  Store.valid h p ->
  Store.read (<[fresh (dom h) := v]> h) p = Store.read h p.
Proof.
  destruct p as [l|]; [ | reflexivity]. simpl. intros [w Hw].
  apply lookup_insert_ne. intros E. rewrite <- E, fresh_unused in Hw.
  discriminate.
Qed.

(** C9: [Asset.DeepCopy] of an asset whose total is set returns a record
    with an empty [Description], whatever the description of the asset;
    [ID], [Owner], [Name], [Symbol], [Decimals] and [CanChange] are those of
    the asset, and [Total] is a new integer of the same value. *)
Theorem Asset_DeepCopy_drops_Description (h : Store.heap) (u : Asset.t)
  (l : Store.loc) (v : Z) :
  Asset.Total u = Some l -> h !! l = Some v -> Asset.Description u <> "" ->
  exists (c : Asset.t) (h' : Store.heap),
    Asset.DeepCopy u h = Some (c, h') /\
    Asset.Description c = "" /\
    Asset.Description c <> Asset.Description u /\
    Asset.ID c = Asset.ID u /\ Asset.Owner c = Asset.Owner u /\
    Asset.Name c = Asset.Name u /\ Asset.Symbol c = Asset.Symbol u /\
    Asset.Decimals c = Asset.Decimals u /\
    Asset.CanChange c = Asset.CanChange u /\
    Store.read h' (Asset.Total c) = Some v /\
    Store.read h' (Asset.Total u) = Some v /\
    Asset.Total c <> Asset.Total u.
Proof.
  intros Ht Hl Hd.
  unfold Asset.DeepCopy, mbind, mret, Store.M_bind, Store.M_ret, Store.deref,
    Store.alloc.
  rewrite Ht, Hl. eexists _, _. split; [reflexivity | ]. simpl.
  repeat split; try reflexivity.
  - intros E. apply Hd. symmetry. exact E.
  - apply lookup_insert_eq.
  - rewrite <- Hl. apply (alloc_keeps h v (Some l)). simpl. eauto.
  - intros E. injection E as E.
    rewrite <- E, fresh_unused in Hl. discriminate.
Qed.

Lemma Asset_DeepCopy_drops_Description_witness :
  exists (c : Asset.t) (h' : Store.heap),
    Asset.DeepCopy
      (Asset.mk Hash_zero Address_zero "Fusion" "FSN" 18 (Some 1%positive)
         false "https://fusion.org")
      {[ 1%positive := 81920000 ]} = Some (c, h') /\
    Asset.Description c = "".
Proof.
  destruct (Asset_DeepCopy_drops_Description {[ 1%positive := 81920000 ]}
              (Asset.mk Hash_zero Address_zero "Fusion" "FSN" 18
                 (Some 1%positive) false "https://fusion.org")
              1%positive 81920000) as (c & h' & Hc & Hd & _).
  - reflexivity.
  - reflexivity.
  - discriminate.
  - exists c, h'. split; [exact Hc | exact Hd].
Defined.

Lemma fold_append (l r : list Ticket.t) :
  fold_left (fun r t => TicketSlice.append r t) l r = r ++ l.
Proof.
  revert r. induction l as [|x l IH]; intros r; simpl.
  - rewrite app_nil_r. reflexivity.
  - rewrite IH. unfold TicketSlice.append. rewrite <- app_assoc. reflexivity.
Qed.

Lemma TicketSlice_DeepCopy_cons (x : Ticket.t) (l : list Ticket.t) :
  TicketSlice.DeepCopy (Some (x :: l)) = Some (x :: l).
Proof.
  unfold TicketSlice.DeepCopy. simpl length. simpl Nat.eqb. cbv iota.
  rewrite fold_append. reflexivity.
Qed.

(** C10: [TicketSlice.DeepCopy] returns nil for the nil slice and for an
    empty slice that is not nil, and for a slice that is not empty a slice
    of the same elements in the same order. *)
Theorem TicketSlice_DeepCopy_spec :
  TicketSlice.DeepCopy None = None /\
  TicketSlice.DeepCopy (Some []) = None /\
  (forall (x : Ticket.t) (l : list Ticket.t),
     TicketSlice.DeepCopy (Some (x :: l)) = Some (x :: l)).
Proof.
  split; [reflexivity | split; [reflexivity | ]].
  exact TicketSlice_DeepCopy_cons.
Qed.


(** C7, what the code does instead: the elements of
    [TicketSlice.DeepCopy s] hold the very pointers of the elements of [s].
    Writing [v'] through any integer field of element [i] of the copy is
    seen through the same field of element [i] of [s], whose integer was
    [v]. *)
Theorem TicketSlice_DeepCopy_shares_integers (h : Store.heap)
  (l : list Ticket.t) (i : nat) (t : Ticket.t) (f : Ticket.int_field)
  (p : Store.loc) (v v' : Z) :
  l !! i = Some t -> Ticket.get f t = Some p -> h !! p = Some v ->
  exists (r : list Ticket.t) (c : Ticket.t) (h' : Store.heap),
    TicketSlice.DeepCopy (Some l) = Some r /\
    r !! i = Some c /\
    Ticket.get f c = Ticket.get f t /\
    Store.read h (Ticket.get f t) = Some v /\
    Store.set (Ticket.get f c) v' h = Some (tt, h') /\
    Store.read h' (Ticket.get f t) = Some v'.
Proof.
  intros Hi Hf Hp.
  destruct l as [|x l]; [discriminate | ].
  exists (x :: l), t. eexists.
  split; [apply TicketSlice_DeepCopy_cons | ].
  split; [exact Hi | ].
  split; [reflexivity | ].
  rewrite Hf. simpl. rewrite Hp.
  split; [reflexivity | split; [reflexivity | ]].
  apply lookup_insert_eq.
Qed.

Lemma TicketSlice_DeepCopy_shares_integers_witness :
  exists (r : list Ticket.t) (c : Ticket.t) (h' : Store.heap),
    TicketSlice.DeepCopy
      (Some [Ticket.mk Hash_zero Address_zero (Some 1%positive) 0 0
               (Some 2%positive) None]) = Some r /\
    r !! 0%nat = Some c /\
    Store.set (Ticket.Height c) 7 {[ 1%positive := 5; 2%positive := 100 ]}
      = Some (tt, h') /\
    h' !! 1%positive = Some 7.
Proof.
  destruct (TicketSlice_DeepCopy_shares_integers
              {[ 1%positive := 5; 2%positive := 100 ]}
              [Ticket.mk Hash_zero Address_zero (Some 1%positive) 0 0
                 (Some 2%positive) None]
              0 (Ticket.mk Hash_zero Address_zero (Some 1%positive) 0 0
                   (Some 2%positive) None)
              Ticket.FHeight 1%positive 5 7)
    as (r & c & h' & Hr & Hc & _ & _ & Hset & Hread).
  - reflexivity.
  - reflexivity.
  - reflexivity.
  - exists r, c, h'. repeat split; assumption.
Defined.

(** The copy of a collection does not have the independence of section
    4.3: the ticket below has height 5 before the write through the copy
    and height 7 after it. *)
Lemma TicketSlice_DeepCopy_not_independent :
  ~ TicketSlice.independent TicketSlice.DeepCopy.
Proof.
  intros H.
  specialize (H {[ 1%positive := 5; 2%positive := 100 ]}
                (<[ 1%positive := 7 ]> {[ 1%positive := 5; 2%positive := 100 ]})
                [Ticket.mk Hash_zero Address_zero (Some 1%positive) 0 0
                   (Some 2%positive) None]
                [Ticket.mk Hash_zero Address_zero (Some 1%positive) 0 0
                   (Some 2%positive) None]
                0%nat
                (Ticket.mk Hash_zero Address_zero (Some 1%positive) 0 0
                   (Some 2%positive) None)
                (Ticket.mk Hash_zero Address_zero (Some 1%positive) 0 0
                   (Some 2%positive) None)
                Ticket.FHeight 7
                eq_refl eq_refl eq_refl eq_refl).
  vm_compute in H. discriminate H.
Qed.

(** ** Checksum display of an address *)

(** *** Characters and nibbles, by cases on the byte *)

Lemma shr4_nibble (b : byte) : byteZ (Zbyte (Z.shiftr (byteZ b) 4)) = byteZ b / 16.
Proof. destruct b; reflexivity. Qed.

Lemma and15_nibble (b : byte) :
  byteZ (Zbyte (Z.land (byteZ b) 15)) = byteZ b mod 16.
Proof. destruct b; reflexivity. Qed.

(** [Encode] writes lower-case hexadecimal characters, and [fromHexChar]
    reads the nibbles back. *)
Lemma hextable_hi (v : byte) :
  let n := Zbyte (Z.shiftr (byteZ v) 4) in
  let d := hextable !!! Z.to_nat (byteZ n) in
  is_lower_hex d = true /\ fromHexChar d = Some n.
Proof. destruct v; split; reflexivity. Qed.

Lemma hextable_lo (v : byte) :
  let n := Zbyte (Z.land (byteZ v) 15) in
  let d := hextable !!! Z.to_nat (byteZ n) in
  is_lower_hex d = true /\ fromHexChar d = Some n.
Proof. destruct v; split; reflexivity. Qed.

Lemma nibbles_join (v : byte) :
  Zbyte (Z.lor (Z.shiftl (byteZ (Zbyte (Z.shiftr (byteZ v) 4))) 4)
               (byteZ (Zbyte (Z.land (byteZ v) 15)))) = v.
Proof. destruct v; reflexivity. Qed.

(** On lower-case hexadecimal text the test [c > '9'] of [Hex] selects the
    letters. *)
Lemma gt_9_letter (c : byte) :
  is_lower_hex c = true -> (byteZ c >? 57) = is_hex_letter c.
Proof. destruct c; intros H; vm_compute in H; try discriminate H; reflexivity. Qed.

Lemma letter_not_digit (c : byte) :
  is_hex_letter c = true -> is_digit c = false.
Proof. destruct c; intros H; vm_compute in H; try discriminate H; reflexivity. Qed.

(** For a letter, [c - 32] is its upper-case form, which [fromHexChar]
    reads as the same nibble and [lower] takes back. *)
Lemma letter_upper (c : byte) :
  is_hex_letter c = true ->
  Zbyte (byteZ c - 32) = upper c /\
  fromHexChar (upper c) = fromHexChar c /\
  lower (upper c) = c.
Proof.
  destruct c; intros H; vm_compute in H; try discriminate H;
    repeat split; reflexivity.
Qed.

Lemma lower_lower_hex (c : byte) : is_lower_hex c = true -> lower c = c.
Proof. destruct c; intros H; vm_compute in H; try discriminate H; reflexivity. Qed.

(** *** The loop of [Hex] *)

Lemma even_mod_2 (i : nat) : Nat.even i = (i mod 2 =? 0)%nat.
Proof.
  destruct (Nat.Even_or_Odd i) as [[m ->] | [m ->]].
  - rewrite Nat.even_even, Nat.mul_comm, Nat.Div0.mod_mul. reflexivity.
  - rewrite Nat.even_odd, Nat.add_comm, Nat.mul_comm, Nat.Div0.mod_add.
    reflexivity.
Qed.

Lemma hash_nibble_step (hash : list byte) (i : nat) :
  byteZ (if (i mod 2 =? 0)%nat
         then Zbyte (Z.shiftr (byteZ (hash !!! (i / 2)%nat)) 4)
         else Zbyte (Z.land (byteZ (hash !!! (i / 2)%nat)) 15))
  = hash_nibble hash i.
Proof.
  unfold hash_nibble. rewrite even_mod_2.
  destruct (i mod 2 =? 0)%nat; [apply shr4_nibble | apply and15_nibble].
Qed.

(** One turn writes [Hex_char] at its index and nothing else. *)
Lemma Hex_step_insert (hash result : list byte) (i : nat) :
  Hex_step hash result i = <[i := Hex_char hash i (result !!! i)]> result.
Proof.
  unfold Hex_step, Hex_char. cbv zeta. rewrite hash_nibble_step.
  destruct ((byteZ (result !!! i) >? 57) && (hash_nibble hash i >? 7));
    [reflexivity | ].
  destruct (result !! i) as [c|] eqn:E.
  - rewrite (list_lookup_total_correct _ _ _ E).
    symmetry. apply list_insert_id. exact E.
  - symmetry. apply list_insert_ge. apply lookup_ge_None. exact E.
Qed.

Lemma Hex_loop_length (hash : list byte) (l : list nat) (result : list byte) :
  length (fold_left (Hex_step hash) l result) = length result.
Proof.
  revert result. induction l as [|i l IH]; intros result; simpl.
  - reflexivity.
  - rewrite IH, Hex_step_insert. apply length_insert.
Qed.

(** After the turns [0 .. n-1] the characters before [n] are those of
    [Hex_char] and the others are untouched. *)
Lemma Hex_loop_lookup (hash result : list byte) (n : nat) :
  forall i : nat,
    fold_left (Hex_step hash) (seq 0 n) result !! i =
    if decide (i < n)%nat then Hex_char hash i <$> result !! i
    else result !! i.
Proof.
  induction n as [|n IH]; intros i.
  - simpl. destruct (decide (i < 0)%nat); [lia | reflexivity].
  - rewrite seq_S, fold_left_app. simpl.
    pose proof (Hex_loop_length hash (seq 0 n) result) as Hlen.
    set (r := fold_left (Hex_step hash) (seq 0 n) result) in *.
    rewrite Hex_step_insert.
    assert (Hn : r !! n = result !! n).
    { rewrite (IH n). destruct (decide (n < n)%nat); [lia | reflexivity]. }
    destruct (decide (i = n)) as [-> | Hne].
    + destruct (decide (n < S n)%nat); [ | lia].
      destruct (result !! n) as [c|] eqn:E.
      * rewrite list_lookup_insert_eq
          by (rewrite Hlen; apply lookup_lt_is_Some; eauto).
        rewrite (list_lookup_total_correct _ _ _ Hn). reflexivity.
      * rewrite list_insert_ge by (apply lookup_ge_None; exact Hn).
        exact Hn.
    + rewrite list_lookup_insert_ne by congruence.
      rewrite (IH i).
      destruct (decide (i < n)%nat), (decide (i < S n)%nat);
        try reflexivity; lia.
Qed.

(** The loop of [Hex] over the whole text is [Hex_char] at every index. *)
Lemma Hex_loop_imap (hash result : list byte) :
  fold_left (Hex_step hash) (seq 0 (length result)) result
  = imap (Hex_char hash) result.
Proof.
  apply list_eq. intros i.
  rewrite Hex_loop_lookup, list_lookup_imap.
  destruct (decide (i < length result)%nat) as [Hlt | Hge]; [reflexivity | ].
  rewrite (proj2 (lookup_ge_None result i)) by lia. reflexivity.
Qed.

(** *** The text of an address and its checksum form *)

Lemma Encode_length (a : list byte) : length (Encode a) = (2 * length a)%nat.
Proof. induction a as [|v a IH]; simpl; [reflexivity | rewrite IH; lia]. Qed.

Lemma Encode_lower_hex (a : list byte) :
  Forall (fun c => is_lower_hex c = true) (Encode a).
Proof.
  induction a as [|v a IH]; simpl; [constructor | ].
  constructor; [apply (hextable_hi v) | ].
  constructor; [apply (hextable_lo v) | exact IH].
Qed.

(** On lower-case hexadecimal text [Hex_char] is the rule of the
    specification: a letter under a nibble above 7 goes to upper case. *)
Lemma Hex_char_rule (hash : list byte) (i : nat) (c : byte) :
  is_lower_hex c = true ->
  Hex_char hash i c =
  if is_hex_letter c && (hash_nibble hash i >? 7) then upper c else c.
Proof.
  intros Hc. unfold Hex_char. rewrite (gt_9_letter c Hc).
  destruct (is_hex_letter c) eqn:El; [ | reflexivity].
  destruct (hash_nibble hash i >? 7); [ | reflexivity].
  simpl. apply (letter_upper c El).
Qed.

Lemma Hex_char_same_hex (hash : list byte) (i : nat) (c : byte) :
  is_lower_hex c = true -> same_hex c (Hex_char hash i c).
Proof.
  intros Hc. rewrite (Hex_char_rule hash i c Hc). unfold same_hex.
  destruct (is_hex_letter c) eqn:El; [ | left; reflexivity].
  destruct (hash_nibble hash i >? 7); simpl;
    [right; split; reflexivity | left; reflexivity].
Qed.

Lemma imap_same_hex (f : nat -> byte -> byte) (l : list byte) :
  (forall i c, is_lower_hex c = true -> same_hex c (f i c)) ->
  Forall (fun c => is_lower_hex c = true) l ->
  Forall2 same_hex l (imap f l).
Proof.
  intros Hf Hl. revert f Hf.
  induction Hl as [|c l Hc Hl IH]; intros f Hf; simpl.
  - constructor.
  - constructor; [apply Hf; exact Hc | ].
    apply IH. intros i d Hd. apply Hf. exact Hd.
Qed.

Lemma fromHexChar_same_hex (d p : byte) :
  same_hex d p -> fromHexChar p = fromHexChar d.
Proof.
  intros [-> | [Hl ->]]; [reflexivity | ]. apply (letter_upper d Hl).
Qed.

Lemma lower_same_hex (d p : byte) :
  is_lower_hex d = true -> same_hex d p -> lower p = d.
Proof.
  intros Hd [-> | [Hl ->]]; [apply lower_lower_hex; exact Hd | ].
  apply (letter_upper d Hl).
Qed.

(** Decoding reads the bytes back from the text in either case. *)
Lemma Decode_same_hex (a body : list byte) :
  Forall2 same_hex (Encode a) body -> Decode body = a.
Proof.
  revert body. induction a as [|v a IH]; intros body H; simpl in H.
  - inversion H. reflexivity.
  - inversion H as [|d1 p l1 body1 Hp H1]; subst.
    inversion H1 as [|d2 q l2 body2 Hq H2]; subst.
    simpl.
    rewrite (fromHexChar_same_hex _ _ Hp), (fromHexChar_same_hex _ _ Hq).
    rewrite (proj2 (hextable_hi v)), (proj2 (hextable_lo v)).
    rewrite nibbles_join, (IH _ H2). reflexivity.
Qed.

(** Lower-casing the checksum text gives the text it was made from. *)
Lemma lower_same_hex_list (l body : list byte) :
  Forall (fun c => is_lower_hex c = true) l ->
  Forall2 same_hex l body -> lower <$> body = l.
Proof.
  intros Hl H. induction H as [|d p l body Hp H IH]; [reflexivity | ].
  inversion Hl; subst. rewrite fmap_cons.
  rewrite (lower_same_hex d p) by assumption.
  rewrite IH by assumption. reflexivity.
Qed.

Lemma letter_upper_differs (c : byte) : is_hex_letter c = true -> upper c <> c.
Proof. destruct c; intros H; vm_compute in H; try discriminate H; discriminate. Qed.

(** [Hex] is [0x] and the loop's characters, for any digest function. *)
Lemma Address_Hex_eq (Keccak256 : list byte -> list byte) (a : Address) :
  Address_Hex Keccak256 a =
  "0x" +:+ String.string_of_list_byte
             (imap (Hex_char (Keccak256 (Encode a))) (Encode a)).
Proof.
  unfold Address_Hex, EncodeToString. cbv zeta.
  rewrite String.list_byte_of_string_of_list_byte, Hex_loop_imap.
  reflexivity.
Qed.

(** C3: for a 20-byte address [a] and whatever function computes the
    digest, [Hex a] is [0x] followed by 40 characters; character [i] is
    the [i]-th lower-case hexadecimal character [c] of [a], in upper case
    exactly when [c] is a letter and the nibble of the digest of the
    lower-case text at position [i] is above 7, digits being unchanged.
    Decoding [Hex a] gives [a] back, and the lower-case form of [Hex a] is
    the plain hexadecimal text. *)
Theorem Address_Hex_checksum (Keccak256 : list byte -> list byte)
  (a : Address) :
  is_Address a ->
  let text := Encode a in
  let hash := Keccak256 text in
  exists body : list byte,
    Address_Hex Keccak256 a = "0x" +:+ String.string_of_list_byte body /\
    length text = 40%nat /\ length body = 40%nat /\
    (forall i : nat, (i < 40)%nat ->
       exists c : byte,
         text !! i = Some c /\ is_lower_hex c = true /\
         body !! i =
           Some (if is_hex_letter c && (hash_nibble hash i >? 7)
                 then upper c else c) /\
         (is_hex_letter c = true -> upper c <> c) /\
         (is_digit c = true -> body !! i = Some c)) /\
    HexToAddress (Address_Hex Keccak256 a) = a /\
    ToLower (Address_Hex Keccak256 a) = "0x" +:+ EncodeToString a.
Proof.
  intros Ha text hash.
  assert (Hlen : length text = 40%nat).
  { unfold text. rewrite Encode_length, Ha. reflexivity. }
  assert (Hhex : Forall (fun c => is_lower_hex c = true) text)
    by apply Encode_lower_hex.
  assert (Hsame : Forall2 same_hex text (imap (Hex_char hash) text)).
  { apply imap_same_hex; [ | exact Hhex].
    intros i c Hc. apply Hex_char_same_hex. exact Hc. }
  exists (imap (Hex_char hash) text).
  rewrite Address_Hex_eq. fold text. fold hash.
  split; [reflexivity | ].
  split; [exact Hlen | ].
  split; [rewrite length_imap; exact Hlen | ].
  split; [ | split].
  - intros i Hi.
    destruct (lookup_lt_is_Some_2 text i) as [c Hc]; [lia | ].
    exists c.
    assert (Hlow : is_lower_hex c = true).
    { rewrite Forall_lookup in Hhex. exact (Hhex i c Hc). }
    split; [exact Hc | split; [exact Hlow | ]].
    rewrite list_lookup_imap, Hc. simpl.
    rewrite (Hex_char_rule hash i c Hlow).
    split; [reflexivity | split; [apply letter_upper_differs | ]].
    intros Hd. destruct (is_hex_letter c) eqn:El; [ | reflexivity].
    rewrite (letter_not_digit c El) in Hd. discriminate.
  - set (s := String.string_of_list_byte (imap (Hex_char hash) text)).
    change ("0x" +:+ s) with (String "0" (String "x" s)).
    unfold HexToAddress, FromHex, DecodeString. subst s.
    rewrite String.list_byte_of_string_of_list_byte.
    rewrite (Decode_same_hex a _ Hsame).
    apply BytesToAddress_id. exact Ha.
  - set (s := String.string_of_list_byte (imap (Hex_char hash) text)).
    change ("0x" +:+ s) with (String "0" (String "x" s)).
    unfold ToLower, EncodeToString.
    change (String.list_byte_of_string (String "0" (String "x" s)))
      with (byte_of_ascii "0" :: byte_of_ascii "x" ::
            String.list_byte_of_string s).
    subst s.
    rewrite String.list_byte_of_string_of_list_byte, !fmap_cons.
    rewrite (lower_same_hex_list text _ Hhex Hsame).
    reflexivity.
Qed.

Lemma Address_Hex_checksum_witness :
  HexToAddress
    (Address_Hex (fun _ => replicate 32 xa7) (replicate 18 xab ++ [x1f; xc0]))
  = replicate 18 xab ++ [x1f; xc0] /\
  ToLower
    (Address_Hex (fun _ => replicate 32 xa7) (replicate 18 xab ++ [x1f; xc0]))
  = "0x" +:+ EncodeToString (replicate 18 xab ++ [x1f; xc0]).
Proof.
  destruct (Address_Hex_checksum (fun _ => replicate 32 xa7)
              (replicate 18 xab ++ [x1f; xc0]))
    as (body & _ & _ & _ & _ & Hdecode & Hlower).
  - reflexivity.
  - split; [exact Hdecode | exact Hlower].
Defined.

(** * Further properties of the code *)

(** ** SetBytes on a receiver that is not zero *)

Lemma copy_at_right (n : nat) (h b : list byte) :
  length h = n -> (length b <= n)%nat ->
  copy_at h (n - length b) b = take (n - length b) h ++ b.
Proof.
  intros Hh Hb. unfold copy_at, copy.
  rewrite length_drop, Hh.
  replace (n - (n - length b))%nat with (length b) by lia.
  rewrite firstn_all, drop_drop.
  rewrite drop_ge by lia. rewrite app_nil_r. reflexivity.
Qed.

(** X1: [SetBytes] writes the last 32 (20) bytes of its argument at the
    right end of the receiver and keeps the length of the receiver. When
    the argument is shorter, the bytes of the receiver before it stay as
    they were: they are not set to zero. *)
Theorem SetBytes_keeps_leading_bytes (r b : list byte) :
  (is_Hash r ->
   Hash_SetBytes r b = take (32 - length b) r ++ drop (length b - 32) b /\
   is_Hash (Hash_SetBytes r b)) /\
  (is_Address r ->
   Address_SetBytes r b = take (20 - length b) r ++ drop (length b - 20) b /\
   is_Address (Address_SetBytes r b)).
Proof.
  split; intros Hr.
  - unfold is_Hash, HashLength in *.
    assert (E : Hash_SetBytes r b =
                take (32 - length b) r ++ drop (length b - 32) b).
    { unfold Hash_SetBytes. rewrite Hr. unfold HashLength.
      case_bool_decide as Hlen.
      - rewrite (copy_at_right 32) by (try rewrite crop_length; lia).
        rewrite crop_length by lia.
        replace (32 - length b)%nat with (32 - 32)%nat by lia. reflexivity.
      - rewrite (copy_at_right 32) by lia.
        replace (length b - 32)%nat with 0%nat by lia. reflexivity. }
    split; [exact E | ]. rewrite E.
    rewrite length_app, length_take, length_drop, Hr. lia.
  - unfold is_Address, AddressLength in *.
    assert (E : Address_SetBytes r b =
                take (20 - length b) r ++ drop (length b - 20) b).
    { unfold Address_SetBytes. rewrite Hr. unfold AddressLength.
      case_bool_decide as Hlen.
      - rewrite (copy_at_right 20) by (try rewrite crop_length; lia).
        rewrite crop_length by lia.
        replace (20 - length b)%nat with (20 - 20)%nat by lia. reflexivity.
      - rewrite (copy_at_right 20) by lia.
        replace (length b - 20)%nat with 0%nat by lia. reflexivity. }
    split; [exact E | ]. rewrite E.
    rewrite length_app, length_take, length_drop, Hr. lia.
Qed.

Lemma SetBytes_keeps_leading_bytes_witness :
  Address_SetBytes (replicate 20 xff) [x01; x02]
  = replicate 18 xff ++ [x01; x02].
Proof.
  apply (proj2 (SetBytes_keeps_leading_bytes (replicate 20 xff) [x01; x02])).
  reflexivity.
Defined.

(** ** An address as a hash *)

(** X2: [Address.Hash] of a 20-byte address is the address behind twelve
    zero bytes; [BytesToAddress] of its bytes is the address again, so two
    addresses with the same hash are equal. *)
Theorem Address_Hash_pads (a b : Address) :
  is_Address a -> is_Address b ->
  Address_Hash a = replicate 12 x00 ++ a /\
  is_Hash (Address_Hash a) /\
  BytesToAddress (Hash_Bytes (Address_Hash a)) = a /\
  (Address_Hash a = Address_Hash b -> a = b).
Proof.
  unfold is_Address. intros Ha Hb.
  assert (E : forall x : Address, length x = AddressLength ->
                Address_Hash x = replicate 12 x00 ++ x).
  { intros x Hx. unfold Address_Hash. rewrite BytesToHash_eq, Hx. reflexivity. }
  split; [exact (E a Ha) | ].
  split; [apply BytesToHash_length | ].
  split.
  - unfold Hash_Bytes. rewrite (E a Ha), BytesToAddress_eq.
    rewrite length_app, length_replicate, Ha. unfold AddressLength.
    change (20 - (12 + 20))%nat with 0%nat.
    change (12 + 20 - 20)%nat with 12%nat.
    rewrite (drop_app_length' (replicate 12 x00) a 12)
      by (rewrite length_replicate; reflexivity).
    reflexivity.
  - rewrite (E a Ha), (E b Hb). intros H. apply app_inv_head in H. exact H.
Qed.

Lemma Address_Hash_pads_witness :
  Address_Hash (replicate 20 xab) = replicate 12 x00 ++ replicate 20 xab.
Proof.
  apply (Address_Hash_pads (replicate 20 xab) (replicate 20 xab));
    reflexivity.
Defined.

(** ** Scan and Value *)

(** X3: [Hash.Scan] succeeds exactly on a byte slice of 32 bytes, and then
    the hash is that slice; on any other value it returns an error and
    leaves the hash as it was. Scanning what [Value] returns gives the
    hash back. *)
Theorem Hash_Scan_spec (h : Hash) (src : driver_Value) :
  is_Hash h ->
  (snd (Hash_Scan h src) = nil_error <->
   exists b, src = VBytes b /\ length b = 32%nat) /\
  (forall b, src = VBytes b -> length b = 32%nat ->
     Hash_Scan h src = (b, nil_error)) /\
  (snd (Hash_Scan h src) <> nil_error -> fst (Hash_Scan h src) = h) /\
  (forall h' : Hash, is_Hash h' ->
     Hash_Scan h (fst (Hash_Value h')) = (h', nil_error)).
Proof.
  unfold is_Hash. intros Hh.
  assert (Hok : forall b, length b = 32%nat ->
                  Hash_Scan h (VBytes b) = (b, nil_error)).
  { intros b Hb. unfold Hash_Scan. rewrite Hb. simpl.
    unfold copy. rewrite Hh, Hb. unfold HashLength.
    rewrite <- Hb at 1. rewrite firstn_all, drop_ge by (rewrite Hh; reflexivity).
    rewrite app_nil_r. reflexivity. }
  repeat split.
  - destruct src as [b | T]; simpl; [ | discriminate].
    destruct (length b =? HashLength)%nat eqn:E; simpl; [ | discriminate].
    intros _. exists b. split; [reflexivity | ].
    apply Nat.eqb_eq in E. exact E.
  - intros (b & -> & Hb). rewrite (Hok b Hb). reflexivity.
  - intros b -> Hb. exact (Hok b Hb).
  - destruct src as [b | T]; simpl; [ | reflexivity].
    destruct (length b =? HashLength)%nat eqn:E; simpl; [ | reflexivity].
    intros H. exfalso. apply H. reflexivity.
  - intros h' Hh'. simpl. apply Hok. exact Hh'.
Qed.

Lemma Hash_Scan_spec_witness :
  Hash_Scan Hash_zero (fst (Hash_Value (replicate 32 x5a)))
  = (replicate 32 x5a, nil_error).
Proof.
  apply (Hash_Scan_spec Hash_zero (VBytes [])); reflexivity.
Defined.

(** X4: [Address.Scan] succeeds exactly on a byte slice of 20 bytes, and
    then the address is that slice; on any other value it returns an
    error and leaves the address as it was. Scanning what [Value] returns
    gives the address back. *)
Theorem Address_Scan_spec (a : Address) (src : driver_Value) :
  is_Address a ->
  (snd (Address_Scan a src) = nil_error <->
   exists b, src = VBytes b /\ length b = 20%nat) /\
  (forall b, src = VBytes b -> length b = 20%nat ->
     Address_Scan a src = (b, nil_error)) /\
  (snd (Address_Scan a src) <> nil_error -> fst (Address_Scan a src) = a) /\
  (forall a' : Address, is_Address a' ->
     Address_Scan a (fst (Address_Value a')) = (a', nil_error)).
Proof.
  unfold is_Address. intros Ha.
  assert (Hok : forall b, length b = 20%nat ->
                  Address_Scan a (VBytes b) = (b, nil_error)).
  { intros b Hb. unfold Address_Scan. rewrite Hb. simpl.
    unfold copy. rewrite Ha, Hb. unfold AddressLength.
    rewrite <- Hb at 1. rewrite firstn_all, drop_ge by (rewrite Ha; reflexivity).
    rewrite app_nil_r. reflexivity. }
  repeat split.
  - destruct src as [b | T]; simpl; [ | discriminate].
    destruct (length b =? AddressLength)%nat eqn:E; simpl; [ | discriminate].
    intros _. exists b. split; [reflexivity | ].
    apply Nat.eqb_eq in E. exact E.
  - intros (b & -> & Hb). rewrite (Hok b Hb). reflexivity.
  - intros b -> Hb. exact (Hok b Hb).
  - destruct src as [b | T]; simpl; [ | reflexivity].
    destruct (length b =? AddressLength)%nat eqn:E; simpl; [ | reflexivity].
    intros H. exfalso. apply H. reflexivity.
  - intros a' Ha'. simpl. apply Hok. exact Ha'.
Qed.

Lemma Address_Scan_spec_witness :
  Address_Scan Address_zero (fst (Address_Value (replicate 20 x5a)))
  = (replicate 20 x5a, nil_error).
Proof.
  apply (Address_Scan_spec Address_zero (VBytes [])); reflexivity.
Defined.

(** ** Identifiers as integers *)

Lemma byteZ_range (b : byte) : 0 <= byteZ b < 256.
Proof. destruct b; vm_compute; split; congruence. Qed.

Lemma Zbyte_byteZ (b : byte) : Zbyte (byteZ b) = b.
Proof. destruct b; reflexivity. Qed.

Lemma byteZ_inj (b c : byte) : byteZ b = byteZ c -> b = c.
Proof. intros H. rewrite <- (Zbyte_byteZ b), <- (Zbyte_byteZ c), H. reflexivity. Qed.

Lemma byteZ_Zbyte (x : Z) : 0 <= x < 256 -> byteZ (Zbyte x) = x.
Proof.
  intros Hx. unfold Zbyte, u8, byteZ.
  rewrite Z.mod_small by (change (2 ^ 8) with 256; lia).
  destruct (Byte.of_N (Z.to_N x)) as [b|] eqn:E.
  - apply Byte.to_of_N in E. rewrite E. lia.
  - apply Byte.of_N_None_iff in E. lia.
Qed.

Lemma big_fold_acc (l : list byte) (acc : Z) :
  fold_left (fun acc b => acc * 256 + byteZ b) l acc =
  acc * 256 ^ Z.of_nat (length l) + big_SetBytes l.
Proof.
  unfold big_SetBytes. revert acc. induction l as [|b l IH]; intros acc.
  - simpl. lia.
  - cbn [fold_left length]. rewrite IH, (IH (0 * 256 + byteZ b)).
    rewrite Nat2Z.inj_succ, Z.pow_succ_r by lia. ring.
Qed.

Lemma big_SetBytes_cons (b : byte) (l : list byte) :
  big_SetBytes (b :: l) = byteZ b * 256 ^ Z.of_nat (length l) + big_SetBytes l.
Proof.
  unfold big_SetBytes at 1. cbn [fold_left]. rewrite big_fold_acc. lia.
Qed.

Lemma big_SetBytes_app (l k : list byte) :
  big_SetBytes (l ++ k) =
  big_SetBytes l * 256 ^ Z.of_nat (length k) + big_SetBytes k.
Proof.
  unfold big_SetBytes at 1. rewrite fold_left_app.
  fold (big_SetBytes l). apply big_fold_acc.
Qed.

(** A slice of [n] bytes is a number below [256^n]. *)
Lemma big_SetBytes_range (l : list byte) :
  0 <= big_SetBytes l < 256 ^ Z.of_nat (length l).
Proof.
  induction l as [|b l IH].
  - unfold big_SetBytes. simpl. lia.
  - rewrite big_SetBytes_cons. cbn [length].
    rewrite Nat2Z.inj_succ, Z.pow_succ_r by lia.
    pose proof (byteZ_range b). nia.
Qed.

Lemma big_SetBytes_zeros (n : nat) (l : list byte) :
  big_SetBytes (replicate n x00 ++ l) = big_SetBytes l.
Proof.
  induction n as [|n IH]; [reflexivity | ].
  cbn [replicate app]. rewrite big_SetBytes_cons, IH.
  change (byteZ x00) with 0. lia.
Qed.

(** Two slices of one length that are the same number are equal. *)
Lemma big_SetBytes_inj (l k : list byte) :
  length l = length k -> big_SetBytes l = big_SetBytes k -> l = k.
Proof.
  revert k. induction l as [|b l IH]; intros [|c k] Hlen Hv;
    try discriminate; [reflexivity | ].
  injection Hlen as Hlen.
  rewrite !big_SetBytes_cons, <- Hlen in Hv.
  pose proof (big_SetBytes_range l) as Rl.
  pose proof (big_SetBytes_range k) as Rk. rewrite <- Hlen in Rk.
  set (P := 256 ^ Z.of_nat (length l)) in *.
  assert (HP : 0 < P) by (apply Z.pow_pos_nonneg; lia).
  assert (Hb : byteZ b = byteZ c) by nia.
  assert (Hr : big_SetBytes l = big_SetBytes k) by nia.
  rewrite (byteZ_inj _ _ Hb), (IH k Hlen Hr). reflexivity.
Qed.

(** [Bytes] writes its number: read back, the bytes give it again. *)
Lemma big_Bytes_upto_value (n : nat) (z : Z) :
  0 <= z < 256 ^ Z.of_nat n -> big_SetBytes (big_Bytes_upto n z) = z.
Proof.
  revert z. induction n as [|n IH]; intros z Hz.
  - simpl in *. unfold big_SetBytes. simpl. lia.
  - cbn [big_Bytes_upto]. destruct (z =? 0) eqn:E.
    + apply Z.eqb_eq in E. subst z. reflexivity.
    + rewrite Nat2Z.inj_succ, Z.pow_succ_r in Hz by lia.
      rewrite big_SetBytes_app, IH.
      * change (big_SetBytes [Zbyte (z mod 256)])
          with (0 * 256 + byteZ (Zbyte (z mod 256))).
        rewrite byteZ_Zbyte by (apply Z.mod_pos_bound; lia).
        cbn [length]. change (256 ^ Z.of_nat 1) with 256.
        pose proof (Z.div_mod z 256). lia.
      * split; [apply Z.div_pos; lia | ].
        apply Z.div_lt_upper_bound; lia.
Qed.

Lemma big_Bytes_upto_length (n m : nat) (z : Z) :
  0 <= z < 256 ^ Z.of_nat m -> (length (big_Bytes_upto n z) <= m)%nat.
Proof.
  revert m z. induction n as [|n IH]; intros m z Hz; [simpl; lia | ].
  cbn [big_Bytes_upto]. destruct (z =? 0) eqn:E; [simpl; lia | ].
  apply Z.eqb_neq in E.
  destruct m as [|m]; [simpl in Hz; lia | ].
  rewrite Nat2Z.inj_succ, Z.pow_succ_r in Hz by lia.
  rewrite length_app. cbn [length].
  assert (length (big_Bytes_upto n (z / 256)) <= m)%nat; [ | lia].
  apply IH. split; [apply Z.div_pos; lia | ].
  apply Z.div_lt_upper_bound; lia.
Qed.

Lemma big_Bytes_fuel (z : Z) :
  0 <= z -> z < 256 ^ Z.of_nat (S (Z.to_nat (Z.log2 z))).
Proof.
  intros Hz. destruct (Z.eq_dec z 0) as [-> | Hnz]; [reflexivity | ].
  pose proof (Z.log2_nonneg z) as Hl.
  pose proof (Z.log2_spec z ltac:(lia)) as [_ Hu].
  rewrite Nat2Z.inj_succ, Z2Nat.id by lia.
  eapply Z.lt_le_trans; [exact Hu | ].
  change 256 with (2 ^ 8). rewrite <- Z.pow_mul_r by lia.
  apply Z.pow_le_mono_r; lia.
Qed.

Lemma big_Bytes_value (x : Z) : big_SetBytes (big_Bytes x) = Z.abs x.
Proof.
  unfold big_Bytes. apply big_Bytes_upto_value.
  split; [lia | apply big_Bytes_fuel; lia].
Qed.

Lemma big_Bytes_length (x : Z) (m : nat) :
  Z.abs x < 256 ^ Z.of_nat m -> (length (big_Bytes x) <= m)%nat.
Proof.
  intros H. unfold big_Bytes. apply big_Bytes_upto_length. lia.
Qed.

(** The last [n] bytes of a slice are its number modulo [256^n]. *)
Lemma big_SetBytes_crop (n : nat) (b : list byte) :
  big_SetBytes (replicate (n - length b) x00 ++ drop (length b - n) b)
  = big_SetBytes b mod 256 ^ Z.of_nat n.
Proof.
  rewrite big_SetBytes_zeros.
  assert (Hb : big_SetBytes b =
               big_SetBytes (take (length b - n) b)
               * 256 ^ Z.of_nat (length (drop (length b - n) b))
               + big_SetBytes (drop (length b - n) b)).
  { rewrite <- big_SetBytes_app, take_drop. reflexivity. }
  rewrite Hb. clear Hb.
  pose proof (big_SetBytes_range (drop (length b - n) b)) as R.
  set (d := drop (length b - n) b) in *.
  assert (Hd : (length d <= n)%nat) by (unfold d; rewrite length_drop; lia).
  destruct (decide (length b <= n)%nat) as [Hle | Hgt].
  - replace (length b - n)%nat with 0%nat by lia.
    rewrite take_0. change (big_SetBytes []) with 0.
    rewrite Z.mul_0_l, Z.add_0_l. symmetry. apply Z.mod_small.
    split; [lia | ]. eapply Z.lt_le_trans; [apply R | ].
    apply Z.pow_le_mono_r; lia.
  - assert (Hn : length d = n) by (unfold d; rewrite length_drop; lia).
    rewrite Hn in *. rewrite Z.add_comm, Z_mod_plus_full.
    symmetry. apply Z.mod_small. exact R.
Qed.

Lemma BytesToHash_value (b : list byte) :
  Hash_Big (BytesToHash b) = big_SetBytes b mod 2 ^ 256.
Proof.
  unfold Hash_Big. rewrite BytesToHash_eq.
  change (2 ^ 256) with (256 ^ Z.of_nat HashLength).
  apply big_SetBytes_crop.
Qed.

Lemma BytesToAddress_value (b : list byte) :
  Address_Big (BytesToAddress b) = big_SetBytes b mod 2 ^ 160.
Proof.
  unfold Address_Big. rewrite BytesToAddress_eq.
  change (2 ^ 160) with (256 ^ Z.of_nat AddressLength).
  apply big_SetBytes_crop.
Qed.

(** X5: a hash is a number below [2^256], and [BigToHash] of that number
    is the hash again. The other way round, [BigToHash v] read as a
    number is the absolute value of [v] modulo [2^256]: the sign is lost
    and what does not fit in 32 bytes is cut. *)
Theorem Hash_Big_round_trip (h : Hash) (v : Z) :
  (is_Hash h ->
   0 <= Hash_Big h < 2 ^ 256 /\ BigToHash (Hash_Big h) = h) /\
  Hash_Big (BigToHash v) = Z.abs v mod 2 ^ 256 /\
  (0 <= v < 2 ^ 256 -> Hash_Big (BigToHash v) = v).
Proof.
  assert (Hv : Hash_Big (BigToHash v) = Z.abs v mod 2 ^ 256).
  { unfold BigToHash. rewrite BytesToHash_value, big_Bytes_value.
    reflexivity. }
  split; [ | split; [exact Hv | ]].
  - unfold is_Hash. intros Hh.
    assert (R : 0 <= Hash_Big h < 2 ^ 256).
    { pose proof (big_SetBytes_range h) as R. rewrite Hh in R. exact R. }
    split; [exact R | ].
    apply big_SetBytes_inj.
    + rewrite Hh. apply BytesToHash_length.
    + fold (Hash_Big (BigToHash (Hash_Big h))). fold (Hash_Big h).
      unfold BigToHash. rewrite BytesToHash_value, big_Bytes_value.
      rewrite Z.abs_eq by lia. apply Z.mod_small. exact R.
  - intros R. rewrite Hv, Z.abs_eq by lia. apply Z.mod_small. exact R.
Qed.

Lemma Hash_Big_round_trip_witness :
  BigToHash (Hash_Big (replicate 31 x00 ++ [x2a])) = replicate 31 x00 ++ [x2a]
  /\ Hash_Big (BigToHash 42) = 42.
Proof.
  split.
  - apply (proj1 (Hash_Big_round_trip (replicate 31 x00 ++ [x2a]) 42)).
    reflexivity.
  - apply (proj2 (proj2 (Hash_Big_round_trip (replicate 31 x00 ++ [x2a]) 42))).
    lia.
Defined.

(** X6: an address is a number below [2^160], and [BigToAddress] of that
    number is the address again. [BigToAddress v] read as a number is the
    absolute value of [v] modulo [2^160]. *)
Theorem Address_Big_round_trip (a : Address) (v : Z) :
  (is_Address a ->
   0 <= Address_Big a < 2 ^ 160 /\ BigToAddress (Address_Big a) = a) /\
  Address_Big (BigToAddress v) = Z.abs v mod 2 ^ 160 /\
  (0 <= v < 2 ^ 160 -> Address_Big (BigToAddress v) = v).
Proof.
  assert (Hv : Address_Big (BigToAddress v) = Z.abs v mod 2 ^ 160).
  { unfold BigToAddress. rewrite BytesToAddress_value, big_Bytes_value.
    reflexivity. }
  split; [ | split; [exact Hv | ]].
  - unfold is_Address. intros Ha.
    assert (R : 0 <= Address_Big a < 2 ^ 160).
    { pose proof (big_SetBytes_range a) as R. rewrite Ha in R. exact R. }
    split; [exact R | ].
    apply big_SetBytes_inj.
    + rewrite Ha. apply BytesToAddress_length.
    + fold (Address_Big (BigToAddress (Address_Big a))). fold (Address_Big a).
      unfold BigToAddress. rewrite BytesToAddress_value, big_Bytes_value.
      rewrite Z.abs_eq by lia. apply Z.mod_small. exact R.
  - intros R. rewrite Hv, Z.abs_eq by lia. apply Z.mod_small. exact R.
Qed.

Lemma Address_Big_round_trip_witness :
  BigToAddress (Address_Big (replicate 19 x00 ++ [x2a]))
  = replicate 19 x00 ++ [x2a]
  /\ Address_Big (BigToAddress 42) = 42.
Proof.
  split.
  - apply (proj1 (Address_Big_round_trip (replicate 19 x00 ++ [x2a]) 42)).
    reflexivity.
  - apply (proj2 (proj2
             (Address_Big_round_trip (replicate 19 x00 ++ [x2a]) 42))).
    lia.
Defined.

(** X7: as numbers, [BytesToHash b] is [b] modulo [2^256] and
    [BytesToAddress b] is [b] modulo [2^160], so bytes that fit keep their
    value; the hash of an address is the same number as the address. *)
Theorem fromBytes_value (b : list byte) (a : Address) :
  Hash_Big (BytesToHash b) = big_SetBytes b mod 2 ^ 256 /\
  Address_Big (BytesToAddress b) = big_SetBytes b mod 2 ^ 160 /\
  ((length b <= 32)%nat -> Hash_Big (BytesToHash b) = big_SetBytes b) /\
  ((length b <= 20)%nat -> Address_Big (BytesToAddress b) = big_SetBytes b) /\
  (is_Address a -> Hash_Big (Address_Hash a) = Address_Big a).
Proof.
  split; [apply BytesToHash_value | ].
  split; [apply BytesToAddress_value | ].
  pose proof (big_SetBytes_range b) as R.
  split; [ | split].
  - intros Hb. rewrite BytesToHash_value. apply Z.mod_small.
    split; [lia | ]. eapply Z.lt_le_trans; [apply R | ].
    change (2 ^ 256) with (256 ^ 32). apply Z.pow_le_mono_r; lia.
  - intros Hb. rewrite BytesToAddress_value. apply Z.mod_small.
    split; [lia | ]. eapply Z.lt_le_trans; [apply R | ].
    change (2 ^ 160) with (256 ^ 20). apply Z.pow_le_mono_r; lia.
  - unfold is_Address. intros Ha. unfold Address_Hash, Address_Big.
    rewrite BytesToHash_value. apply Z.mod_small.
    pose proof (big_SetBytes_range a) as Ra. rewrite Ha in Ra.
    split; [lia | ]. eapply Z.lt_le_trans; [apply Ra | ].
    change (2 ^ 256) with (256 ^ 32). apply Z.pow_le_mono_r;
      unfold AddressLength; lia.
Qed.

Lemma fromBytes_value_witness :
  Hash_Big (BytesToHash [x01; x00]) = 256 /\
  Hash_Big (Address_Hash (replicate 19 x00 ++ [x07]))
  = Address_Big (replicate 19 x00 ++ [x07]).
Proof.
  split.
  - apply (proj1 (proj2 (proj2
             (fromBytes_value [x01; x00] (replicate 19 x00 ++ [x07]))))).
    simpl. lia.
  - apply (proj2 (proj2 (proj2 (proj2
             (fromBytes_value [x01; x00] (replicate 19 x00 ++ [x07])))))).
    reflexivity.
Defined.

(** ** More on the validation of swaps *)

Lemma RecallSwapParam_Check_succeeds (p : RecallSwapParam.t)
  (blockNumber : option Z) (swap : Swap.t) :
  RecallSwapParam.Check p blockNumber swap = nil_error <->
  exists a s, Swap.MinFromAmount swap = Some a /\ a > 0 /\
              Swap.SwapSize swap = Some s /\ s > 0.
Proof.
  unfold RecallSwapParam.Check, Mul, Big0. split.
  - destruct (Swap.MinFromAmount swap) as [a|]; [ | discriminate].
    destruct (Cmp a 0 <=? 0) eqn:H1; [discriminate | ].
    destruct (Swap.SwapSize swap) as [s|]; [ | discriminate].
    destruct (Cmp s 0 <=? 0) eqn:H2; [discriminate | ].
    intros _. tests_to_Z. exists a, s. repeat split; lia.
  - intros (a & s & -> & Ha & -> & Hs).
    destruct (Cmp a 0 <=? 0) eqn:H1; [tests_to_Z; lia | ].
    destruct (Cmp s 0 <=? 0) eqn:H2; [tests_to_Z; lia | ].
    destruct (Cmp (a * s) 0 <=? 0) eqn:H3; [tests_to_Z; nia | reflexivity].
Qed.

(** X8: [RecallSwapParam.Check] succeeds exactly when the swap has
    [MinFromAmount] and [SwapSize] set and positive; the parameter, the
    owner and the time windows of the swap play no part. The test of the
    product never fails: the error [size * minFromAmount too large] is
    never returned. *)
Theorem RecallSwapParam_Check_spec (p : RecallSwapParam.t)
  (blockNumber : option Z) (swap : Swap.t) :
  (RecallSwapParam.Check p blockNumber swap = nil_error <->
   exists a s, Swap.MinFromAmount swap = Some a /\ a > 0 /\
               Swap.SwapSize swap = Some s /\ s > 0) /\
  RecallSwapParam.Check p blockNumber swap
  <> Errorf "size * minFromAmount too large".
Proof.
  split; [apply RecallSwapParam_Check_succeeds | ].
  unfold RecallSwapParam.Check, Mul, Big0.
  destruct (Swap.MinFromAmount swap) as [a|]; [ | discriminate].
  destruct (Cmp a 0 <=? 0) eqn:H1; [discriminate | ].
  destruct (Swap.SwapSize swap) as [s|]; [ | discriminate].
  destruct (Cmp s 0 <=? 0) eqn:H2; [discriminate | ].
  destruct (Cmp (a * s) 0 <=? 0) eqn:H3; [ | discriminate].
  tests_to_Z. nia.
Qed.

(** X9: the tests of the products in [MakeSwapParam.Check] and
    [TakeSwapParam.Check] never fail, the factors being positive integers
    of arbitrary precision: the errors [size * MinFromAmount too large],
    [fromTotal less than  equal to zero] and
    [toTotal less than  equal to zero] are never returned. *)
Theorem Swap_Check_product_errors_unreachable (p : MakeSwapParam.t)
  (q : TakeSwapParam.t) (blockNumber : option Z) (swap : Swap.t)
  (timestamp : Z) :
  MakeSwapParam.Check p blockNumber timestamp
  <> Errorf "size * MinFromAmount too large" /\
  TakeSwapParam.Check q blockNumber swap timestamp
  <> Errorf "fromTotal less than  equal to zero" /\
  TakeSwapParam.Check q blockNumber swap timestamp
  <> Errorf "toTotal less than  equal to zero".
Proof.
  split; [ | split].
  - unfold MakeSwapParam.Check, Mul, Big0.
    destruct (MakeSwapParam.MinFromAmount p) as [a|]; [ | discriminate].
    destruct (MakeSwapParam.MinToAmount p) as [b|]; [ | discriminate].
    destruct (MakeSwapParam.SwapSize p) as [s|]; [ | discriminate].
    destruct (Cmp a 0 <=? 0) eqn:H1; [discriminate | ].
    destruct (Cmp b 0 <=? 0) eqn:H2; [discriminate | ].
    destruct (Cmp s 0 <=? 0) eqn:H3; [discriminate | ]. simpl.
    destruct (len (MakeSwapParam.Description p) >? 1024); [discriminate | ].
    destruct (Cmp (a * s) 0 <=? 0) eqn:H5; [tests_to_Z; nia | ].
    destruct (MakeSwapParam.FromStartTime p >? MakeSwapParam.FromEndTime p);
      [discriminate | ].
    destruct (MakeSwapParam.ToStartTime p >? MakeSwapParam.ToEndTime p);
      [discriminate | ].
    destruct (MakeSwapParam.FromEndTime p <=? timestamp); [discriminate | ].
    destruct (MakeSwapParam.ToEndTime p <=? timestamp); discriminate.
  - unfold TakeSwapParam.Check, Mul, Big0.
    destruct (TakeSwapParam.Size q) as [size|]; [ | discriminate].
    destruct (Cmp size 0 <=? 0) eqn:H1; [discriminate | ].
    destruct (Swap.SwapSize swap) as [swapSize|]; [ | discriminate].
    destruct (Cmp size swapSize >? 0); [discriminate | ].
    destruct (Swap.MinFromAmount swap) as [a|]; [ | discriminate].
    destruct (Cmp a 0 <=? 0) eqn:H3; [discriminate | ].
    destruct (Swap.MinToAmount swap) as [b|]; [ | discriminate].
    destruct (Cmp b 0 <=? 0) eqn:H4; [discriminate | ].
    destruct (Cmp (a * size) 0 <=? 0) eqn:H5; [tests_to_Z; nia | ].
    destruct (Cmp (b * size) 0 <=? 0) eqn:H6; [discriminate | ].
    destruct (Swap.FromEndTime swap <=? timestamp); [discriminate | ].
    destruct (Swap.ToEndTime swap <=? timestamp); discriminate.
  - unfold TakeSwapParam.Check, Mul, Big0.
    destruct (TakeSwapParam.Size q) as [size|]; [ | discriminate].
    destruct (Cmp size 0 <=? 0) eqn:H1; [discriminate | ].
    destruct (Swap.SwapSize swap) as [swapSize|]; [ | discriminate].
    destruct (Cmp size swapSize >? 0); [discriminate | ].
    destruct (Swap.MinFromAmount swap) as [a|]; [ | discriminate].
    destruct (Cmp a 0 <=? 0) eqn:H3; [discriminate | ].
    destruct (Swap.MinToAmount swap) as [b|]; [ | discriminate].
    destruct (Cmp b 0 <=? 0) eqn:H4; [discriminate | ].
    destruct (Cmp (a * size) 0 <=? 0) eqn:H5; [discriminate | ].
    destruct (Cmp (b * size) 0 <=? 0) eqn:H6; [tests_to_Z; nia | ].
    destruct (Swap.FromEndTime swap <=? timestamp); [discriminate | ].
    destruct (Swap.ToEndTime swap <=? timestamp); discriminate.
Qed.

(** X10: a swap that carries the amounts, the size and the end times of a
    [MakeSwapParam] that [Check] accepted at time [timestamp] passes
    [RecallSwapParam.Check], and passes [TakeSwapParam.Check] at every time
    up to [timestamp] for every size from 1 to [SwapSize]. *)
Theorem MakeSwap_accepted_can_be_taken (p : MakeSwapParam.t) (swap : Swap.t)
  (q : TakeSwapParam.t) (r : RecallSwapParam.t)
  (blockNumber blockNumber' : option Z) (timestamp timestamp' size swapSize : Z) :
  MakeSwapParam.Check p blockNumber timestamp = nil_error ->
  Swap.MinFromAmount swap = MakeSwapParam.MinFromAmount p ->
  Swap.MinToAmount swap = MakeSwapParam.MinToAmount p ->
  Swap.SwapSize swap = MakeSwapParam.SwapSize p ->
  Swap.FromEndTime swap = MakeSwapParam.FromEndTime p ->
  Swap.ToEndTime swap = MakeSwapParam.ToEndTime p ->
  MakeSwapParam.SwapSize p = Some swapSize ->
  TakeSwapParam.Size q = Some size -> 0 < size <= swapSize ->
  timestamp' <= timestamp ->
  TakeSwapParam.Check q blockNumber' swap timestamp' = nil_error /\
  RecallSwapParam.Check r blockNumber' swap = nil_error.
Proof.
  intros Hmake Ef Et Es Efe Ete Hsz Hq Hsize Hts.
  assert (Hnot : ~ MakeSwapParam.spec_fails p timestamp).
  { intros Hf. apply (MakeSwapParam_Check_fails p blockNumber) in Hf.
    apply Hf. exact Hmake. }
  unfold MakeSwapParam.spec_fails, MakeSwapParam.unset_or_le0 in Hnot.
  rewrite Hsz in Hnot.
  destruct (MakeSwapParam.MinFromAmount p) as [a|] eqn:Ea;
    [ | exfalso; apply Hnot; tauto].
  destruct (MakeSwapParam.MinToAmount p) as [b|] eqn:Eb;
    [ | exfalso; apply Hnot; tauto].
  assert (Ha : a > 0).
  { destruct (Z_le_gt_dec a 0) as [Hle | Hgt]; [ | exact Hgt].
    exfalso. apply Hnot. left. right. exists a. split; [reflexivity | exact Hle]. }
  assert (Hb : b > 0).
  { destruct (Z_le_gt_dec b 0) as [Hle | Hgt]; [ | exact Hgt].
    exfalso. apply Hnot. right. left. right. exists b.
    split; [reflexivity | exact Hle]. }
  assert (Hfe : MakeSwapParam.FromEndTime p > timestamp).
  { destruct (Z_le_gt_dec (MakeSwapParam.FromEndTime p) timestamp);
      [exfalso; apply Hnot; tauto | assumption]. }
  assert (Hte : MakeSwapParam.ToEndTime p > timestamp).
  { destruct (Z_le_gt_dec (MakeSwapParam.ToEndTime p) timestamp);
      [exfalso; apply Hnot; tauto | assumption]. }
  split.
  - apply TakeSwapParam_Check_succeeds.
    exists size, swapSize, a, b.
    rewrite Es, Ef, Et, Efe, Ete.
    repeat split; try assumption; try lia; nia.
  - apply RecallSwapParam_Check_succeeds.
    exists a, swapSize. rewrite Ef, Es. repeat split; try assumption; lia.
Qed.

Lemma MakeSwap_accepted_can_be_taken_witness :
  TakeSwapParam.Check (TakeSwapParam.mk Hash_zero (Some 3)) None
    (Swap.mk Hash_zero Address_zero Hash_zero 0 2000 (Some 100)
       Hash_zero 0 3000 (Some 50) (Some 10) [] (Some 0) "")
    1000 = nil_error /\
  RecallSwapParam.Check (RecallSwapParam.mk Hash_zero) None
    (Swap.mk Hash_zero Address_zero Hash_zero 0 2000 (Some 100)
       Hash_zero 0 3000 (Some 50) (Some 10) [] (Some 0) "")
  = nil_error.
Proof.
  apply (MakeSwap_accepted_can_be_taken
           (MakeSwapParam.mk Hash_zero 0 2000 (Some 100) Hash_zero 0 3000
              (Some 50) (Some 10) [] None "")
           (Swap.mk Hash_zero Address_zero Hash_zero 0 2000 (Some 100)
              Hash_zero 0 3000 (Some 50) (Some 10) [] (Some 0) "")
           (TakeSwapParam.mk Hash_zero (Some 3))
           (RecallSwapParam.mk Hash_zero)
           None None 1000 1000 3 10); try reflexivity; lia.
Defined.

(** X11: when [TakeSwapParam.Check] accepts a take of some size at some
    time, it accepts every smaller positive size of the same swap at every
    earlier time. *)
Theorem TakeSwapParam_Check_monotone (q q' : TakeSwapParam.t) (swap : Swap.t)
  (blockNumber blockNumber' : option Z) (timestamp timestamp' size size' : Z) :
  TakeSwapParam.Check q blockNumber swap timestamp = nil_error ->
  TakeSwapParam.Size q = Some size ->
  TakeSwapParam.Size q' = Some size' -> 0 < size' <= size ->
  timestamp' <= timestamp ->
  TakeSwapParam.Check q' blockNumber' swap timestamp' = nil_error.
Proof.
  intros Hq Hs Hs' Hle Hts.
  apply TakeSwapParam_Check_succeeds in Hq.
  destruct Hq as (sz & ss & a & b & E1 & E2 & E3 & E4 & H1 & H2 & H3 & H4
                  & H5 & H6 & H7).
  rewrite Hs in E1. injection E1 as <-.
  apply TakeSwapParam_Check_succeeds.
  exists size', ss, a, b. repeat split; try assumption; try lia; nia.
Qed.

Lemma TakeSwapParam_Check_monotone_witness :
  TakeSwapParam.Check (TakeSwapParam.mk Hash_zero (Some 4)) None
    (Swap.mk Hash_zero Address_zero Hash_zero 0 2000 (Some 100)
       Hash_zero 0 3000 (Some 50) (Some 10) [] (Some 0) "")
    500 = nil_error.
Proof.
  apply (TakeSwapParam_Check_monotone
           (TakeSwapParam.mk Hash_zero (Some 10))
           (TakeSwapParam.mk Hash_zero (Some 4))
           (Swap.mk Hash_zero Address_zero Hash_zero 0 2000 (Some 100)
              Hash_zero 0 3000 (Some 50) (Some 10) [] (Some 0) "")
           None None 1000 500 10 4); try reflexivity; lia.
Defined.

(** ** More on the copies of assets and tickets *)

Lemma alloc_keeps_loc (h : Store.heap) (v w : Z) (l : Store.loc) :
  h !! l = Some w -> <[fresh (dom h) := v]> h !! l = Some w.
Proof.
  intros Hl. rewrite lookup_insert_ne; [exact Hl | ].
  intros E. rewrite <- E, fresh_unused in Hl. discriminate.
Qed.



(** What [Ticket.DeepCopy] returns for a ticket with height and value. *)
Lemma Ticket_DeepCopy_eq (h : Store.heap) (t : Ticket.t)
  (lh lv : Store.loc) (vh vv : Z) :
  Ticket.Height t = Some lh -> h !! lh = Some vh ->
  Ticket.Value t = Some lv -> h !! lv = Some vv ->
  let l1 := fresh (dom h) in
  let h1 := <[l1 := vh]> h in
  let l2 := fresh (dom h1) in
  let h2 := <[l2 := vv]> h1 in
  let l3 := fresh (dom h2) in
  let h3 := <[l3 := 0]> h2 in
  Ticket.DeepCopy t h =
  Some (Ticket.mk (Ticket.ID t) (Ticket.Owner t) (Some l1)
          (Ticket.StartTime t) (Ticket.ExpireTime t) (Some l2)
          (match Ticket.weight t with
           | Some _ => Ticket.weight t
           | None => Some l3
           end), h3).
Proof.
  intros Hh Hlh Hv Hlv. cbv zeta.
  unfold Ticket.DeepCopy, mbind, mret, Store.M_bind, Store.M_ret, Store.deref,
    Store.alloc, Ticket.Weight.
  rewrite Hh, Hlh, Hv.
  set (h1 := <[fresh (dom h) := vh]> h).
  assert (K : h1 !! lv = Some vv) by (apply alloc_keeps_loc; exact Hlv).
  rewrite K. reflexivity.
Qed.

(** X14: [Ticket.DeepCopy] does not copy the weight. A ticket with a
    weight and its copy hold the same pointer, so a write through the
    copy's weight is what the original ticket reads; a ticket without a
    weight gets a copy whose weight is a new integer zero. *)
Theorem Ticket_DeepCopy_shares_weight (h : Store.heap) (t : Ticket.t)
  (lh lv : Store.loc) (vh vv : Z) :
  Ticket.Height t = Some lh -> h !! lh = Some vh ->
  Ticket.Value t = Some lv -> h !! lv = Some vv ->
  Store.valid h (Ticket.weight t) ->
  exists (c : Ticket.t) (h1 : Store.heap),
    Ticket.DeepCopy t h = Some (c, h1) /\
    (forall lw : Store.loc, Ticket.weight t = Some lw ->
       Ticket.weight c = Some lw /\
       forall v' : Z, exists h2 : Store.heap,
         Store.set (Ticket.weight c) v' h1 = Some (tt, h2) /\
         Store.read h2 (Ticket.weight t) = Some v') /\
    (Ticket.weight t = None ->
     Ticket.weight c <> None /\ Store.read h1 (Ticket.weight c) = Some 0).
Proof.
  intros Hh Hlh Hv Hlv Hw.
  rewrite (Ticket_DeepCopy_eq h t lh lv vh vv Hh Hlh Hv Hlv).
  eexists _, _. split; [reflexivity | ]. simpl. split.
  - intros lw Elw. rewrite Elw in *. split; [reflexivity | ]. simpl.
    destruct Hw as [w Hlw]. intros v'.
    rewrite (alloc_keeps_loc _ 0 w lw)
      by (apply alloc_keeps_loc, alloc_keeps_loc; exact Hlw).
    eexists. split; [reflexivity | ]. apply lookup_insert_eq.
  - intros Enone. rewrite Enone. split; [discriminate | ]. simpl.
    apply lookup_insert_eq.
Qed.

Lemma Ticket_DeepCopy_shares_weight_witness :
  exists (c : Ticket.t) (h1 : Store.heap),
    Ticket.DeepCopy
      (Ticket.mk Hash_zero Address_zero (Some 1%positive) 0 0
         (Some 2%positive) (Some 3%positive))
      {[ 1%positive := 5; 2%positive := 100; 3%positive := 9 ]}
    = Some (c, h1) /\
    Ticket.weight c = Some 3%positive.
Proof.
  destruct (Ticket_DeepCopy_shares_weight
              {[ 1%positive := 5; 2%positive := 100; 3%positive := 9 ]}
              (Ticket.mk Hash_zero Address_zero (Some 1%positive) 0 0
                 (Some 2%positive) (Some 3%positive))
              1%positive 2%positive 5 100)
    as (c & h1 & Hc & Hw & _).
  - reflexivity.
  - reflexivity.
  - reflexivity.
  - reflexivity.
  - simpl. eauto.
  - exists c, h1. split; [exact Hc | ].
    apply (Hw 3%positive). reflexivity.
Defined.

(** X15: on a heap where the pointers of the ticket are nil or alive,
    [Ticket.DeepCopy] panics exactly when [Height] or [Value] is nil; a
    nil weight is no panic. *)
Theorem Ticket_DeepCopy_panics (h : Store.heap) (t : Ticket.t) :
  Store.valid h (Ticket.Height t) -> Store.valid h (Ticket.Value t) ->
  (Ticket.DeepCopy t h = None <->
   Ticket.Height t = None \/ Ticket.Value t = None).
Proof.
  intros Hh Hv.
  destruct (Ticket.Height t) as [lh|] eqn:Eh.
  - destruct Hh as [vh Hlh].
    destruct (Ticket.Value t) as [lv|] eqn:Ev.
    + destruct Hv as [vv Hlv].
      rewrite (Ticket_DeepCopy_eq h t lh lv vh vv Eh Hlh Ev Hlv).
      split; [discriminate | intros [H | H]; discriminate].
    + unfold Ticket.DeepCopy, mbind, mret, Store.M_bind, Store.M_ret,
        Store.deref, Store.alloc.
      rewrite Eh, Hlh, Ev. split; [right; reflexivity | reflexivity].
  - unfold Ticket.DeepCopy, mbind, mret, Store.M_bind, Store.M_ret,
      Store.deref, Store.alloc.
    rewrite Eh. split; [left; reflexivity | reflexivity].
Qed.

Lemma Ticket_DeepCopy_panics_witness :
  Ticket.DeepCopy
    (Ticket.mk Hash_zero Address_zero (Some 1%positive) 0 0 None None)
    {[ 1%positive := 5 ]} = None.
Proof.
  apply (Ticket_DeepCopy_panics {[ 1%positive := 5 ]}
           (Ticket.mk Hash_zero Address_zero (Some 1%positive) 0 0 None None)).
  - simpl. eauto.
  - exact I.
  - right. reflexivity.
Defined.

(** ** Collections of tickets *)

Lemma Get_loop_eq (l : list Ticket.t) (tid : Hash) :
  TicketSlice.Get_loop l tid =
  match head (filter (fun x => Ticket.ID x = tid) l) with
  | Some x => (Some x, true)
  | None => (None, false)
  end.
Proof.
  induction l as [|x l IH]; [reflexivity | ].
  cbn [TicketSlice.Get_loop]. rewrite filter_cons.
  case_bool_decide as Hx.
  - rewrite decide_True by exact Hx. reflexivity.
  - rewrite decide_False by exact Hx. exact IH.
Qed.

(** An element that is not looked for does not change what [Get] finds. *)
Lemma Get_loop_skip (l1 l2 : list Ticket.t) (x : Ticket.t) (tid : Hash) :
  Ticket.ID x <> tid ->
  TicketSlice.Get_loop (l1 ++ x :: l2) tid = TicketSlice.Get_loop (l1 ++ l2) tid.
Proof.
  intros Hx. rewrite !Get_loop_eq, !filter_app.
  rewrite filter_cons_False by exact Hx. reflexivity.
Qed.

(** The loop of [Delete] ends without a break exactly when no element has
    the identifier. *)
Lemma Delete_loop_None (rest : list Ticket.t) (i : nat) (tid : Hash) :
  TicketSlice.Delete_loop rest i tid = None <->
  forall x, x ∈ rest -> Ticket.ID x <> tid.
Proof.
  revert i. induction rest as [|x rest IH]; intros i; simpl.
  - split; [intros _ y Hy; inversion Hy | reflexivity].
  - case_bool_decide as Hx.
    + split; [discriminate | ]. intros H. exfalso.
      apply (H x); [left | exact Hx].
    + rewrite IH. split.
      * intros H y Hy. apply elem_of_cons in Hy as [-> | Hy];
          [exact Hx | apply H; exact Hy].
      * intros H y Hy. apply H. right. exact Hy.
Qed.

(** It breaks at the first element that has the identifier. *)
Lemma Delete_loop_first (l1 l2 : list Ticket.t) (x : Ticket.t) (i : nat)
  (tid : Hash) :
  Ticket.ID x = tid -> (forall y, y ∈ l1 -> Ticket.ID y <> tid) ->
  TicketSlice.Delete_loop (l1 ++ x :: l2) i tid = Some (i + length l1)%nat.
Proof.
  intros Hx. revert i. induction l1 as [|y l1 IH]; intros i Hl1; simpl.
  - rewrite bool_decide_eq_true_2 by exact Hx. f_equal. lia.
  - rewrite bool_decide_eq_false_2 by (apply Hl1; left).
    rewrite IH by (intros z Hz; apply Hl1; right; exact Hz).
    f_equal. lia.
Qed.

(** A list splits at the first element with a given identifier, or has
    none. *)
Lemma first_with_ID (l : list Ticket.t) (tid : Hash) :
  (forall x, x ∈ l -> Ticket.ID x <> tid) \/
  exists l1 x l2, l = l1 ++ x :: l2 /\ Ticket.ID x = tid /\
                  forall y, y ∈ l1 -> Ticket.ID y <> tid.
Proof.
  induction l as [|x l IH].
  - left. intros y Hy. inversion Hy.
  - destruct (decide (Ticket.ID x = tid)) as [Hx | Hx].
    + right. exists [], x, l. split; [reflexivity | ].
      split; [exact Hx | ]. intros y Hy. inversion Hy.
    + destruct IH as [Hnone | (l1 & y & l2 & -> & Hy & Hl1)].
      * left. intros y Hy. apply elem_of_cons in Hy as [-> | Hy];
          [exact Hx | apply Hnone; exact Hy].
      * right. exists (x :: l1), y, l2. split; [reflexivity | ].
        split; [exact Hy | ]. intros z Hz.
        apply elem_of_cons in Hz as [-> | Hz]; [exact Hx | apply Hl1; exact Hz].
Qed.

Lemma Delete_absent (l : list Ticket.t) (tid : Hash) :
  (forall x, x ∈ l -> Ticket.ID x <> tid) ->
  TicketSlice.Delete (Some l) tid = Some l.
Proof.
  intros H. unfold TicketSlice.Delete.
  rewrite (proj2 (Delete_loop_None l 0 tid) H). reflexivity.
Qed.

Lemma Delete_first (l1 l2 : list Ticket.t) (x : Ticket.t) (tid : Hash) :
  Ticket.ID x = tid -> (forall y, y ∈ l1 -> Ticket.ID y <> tid) ->
  TicketSlice.Delete (Some (l1 ++ x :: l2)) tid = Some (l1 ++ l2).
Proof.
  intros Hx Hl1. unfold TicketSlice.Delete.
  rewrite (Delete_loop_first l1 l2 x 0 tid Hx Hl1). cbn [Nat.add].
  f_equal. rewrite take_app_length. f_equal.
  rewrite (cons_middle x l1 l2), app_assoc.
  apply drop_app_length'. rewrite length_app. simpl. lia.
Qed.

Lemma filter_ID_none (l : list Ticket.t) (tid : Hash) :
  (forall x, x ∈ l -> Ticket.ID x <> tid) <->
  filter (fun x => Ticket.ID x = tid) l = [].
Proof.
  split.
  - intros H. destruct (filter _ l) as [|y k] eqn:E; [reflexivity | ].
    assert (Hy : y ∈ filter (fun x => Ticket.ID x = tid) l)
      by (rewrite E; left).
    apply list_elem_of_filter in Hy as [Hid Hy]. exfalso. exact (H y Hy Hid).
  - intros E x Hx Hid.
    exact (filter_nil_not_elem_of _ l x E Hid Hx).
Qed.

(** X16: [Get] returns the first ticket of the collection whose [ID] is
    the one asked for, with [true]; it returns nil and [false] exactly
    when no ticket has that [ID]. The nil collection has no ticket. *)
Theorem TicketSlice_Get_first (s : TicketSlice.t) (tid : Hash) :
  (forall l1 x l2,
     TicketSlice.elements s = l1 ++ x :: l2 -> Ticket.ID x = tid ->
     (forall y, y ∈ l1 -> Ticket.ID y <> tid) ->
     TicketSlice.Get s tid = (Some x, true)) /\
  (TicketSlice.Get s tid = (None, false) <->
   forall x, x ∈ TicketSlice.elements s -> Ticket.ID x <> tid) /\
  (forall x, fst (TicketSlice.Get s tid) = Some x ->
     Ticket.ID x = tid /\ x ∈ TicketSlice.elements s /\
     snd (TicketSlice.Get s tid) = true) /\
  (fst (TicketSlice.Get s tid) = None -> snd (TicketSlice.Get s tid) = false).
Proof.
  unfold TicketSlice.Get. rewrite Get_loop_eq.
  set (l := TicketSlice.elements s). repeat split.
  - intros l1 x l2 -> Hx Hl1. rewrite filter_app.
    rewrite (proj1 (filter_ID_none l1 tid) Hl1).
    rewrite filter_cons_True by exact Hx. reflexivity.
  - intros H. apply filter_ID_none.
    destruct (filter _ l) as [|y k]; [reflexivity | discriminate].
  - intros H. rewrite (proj1 (filter_ID_none l tid) H). reflexivity.
  - destruct (filter _ l) as [|y k] eqn:E; [discriminate | ].
    simpl in H. injection H as ->.
    assert (Hy : x ∈ filter (fun x => Ticket.ID x = tid) l)
      by (rewrite E; left).
    apply list_elem_of_filter in Hy. apply Hy.
  - destruct (filter _ l) as [|y k] eqn:E; [discriminate | ].
    simpl in H. injection H as ->.
    assert (Hy : x ∈ filter (fun x => Ticket.ID x = tid) l)
      by (rewrite E; left).
    apply list_elem_of_filter in Hy. apply Hy.
  - destruct (filter _ l) as [|y k]; [discriminate | reflexivity].
  - destruct (filter _ l) as [|y k]; [reflexivity | discriminate].
Qed.

Lemma TicketSlice_Get_first_witness :
  TicketSlice.Get
    (Some [Ticket.mk [x01] Address_zero None 0 0 None None;
           Ticket.mk [x02] Address_zero None 7 0 None None;
           Ticket.mk [x02] Address_zero None 8 0 None None])
    [x02]
  = (Some (Ticket.mk [x02] Address_zero None 7 0 None None), true).
Proof.
  apply (proj1 (TicketSlice_Get_first
                  (Some [Ticket.mk [x01] Address_zero None 0 0 None None;
                         Ticket.mk [x02] Address_zero None 7 0 None None;
                         Ticket.mk [x02] Address_zero None 8 0 None None])
                  [x02])
           [Ticket.mk [x01] Address_zero None 0 0 None None]
           (Ticket.mk [x02] Address_zero None 7 0 None None)
           [Ticket.mk [x02] Address_zero None 8 0 None None]).
  - reflexivity.
  - reflexivity.
  - intros y Hy. apply list_elem_of_singleton in Hy. subst y. discriminate.
Defined.

(** X17: [Delete] of an identifier that no ticket has returns the
    collection unchanged; otherwise it removes the first ticket with that
    identifier and nothing else, the others keeping their order, so the
    length goes down by one. The nil collection stays nil. *)
Theorem TicketSlice_Delete_first (l : list Ticket.t) (tid : Hash) :
  TicketSlice.Delete None tid = None /\
  ((forall x, x ∈ l -> Ticket.ID x <> tid) ->
   TicketSlice.Delete (Some l) tid = Some l) /\
  (forall l1 x l2,
     l = l1 ++ x :: l2 -> Ticket.ID x = tid ->
     (forall y, y ∈ l1 -> Ticket.ID y <> tid) ->
     TicketSlice.Delete (Some l) tid = Some (l1 ++ l2) /\
     S (TicketSlice.Len (TicketSlice.Delete (Some l) tid)) = length l) /\
  (forall x, x ∈ TicketSlice.elements (TicketSlice.Delete (Some l) tid) ->
     x ∈ l).
Proof.
  split; [reflexivity | ].
  split; [apply Delete_absent | ].
  split.
  - intros l1 x l2 -> Hx Hl1. rewrite (Delete_first l1 l2 x tid Hx Hl1).
    split; [reflexivity | ]. simpl. rewrite !length_app. simpl. lia.
  - intros y Hy.
    destruct (first_with_ID l tid) as [Hnone | (l1 & x & l2 & -> & Hx & Hl1)].
    + rewrite (Delete_absent l tid Hnone) in Hy. exact Hy.
    + rewrite (Delete_first l1 l2 x tid Hx Hl1) in Hy. simpl in Hy.
      apply elem_of_app in Hy. apply elem_of_app.
      destruct Hy as [Hy | Hy]; [left; exact Hy | right; right; exact Hy].
Qed.

Lemma TicketSlice_Delete_first_witness :
  TicketSlice.Delete
    (Some [Ticket.mk [x01] Address_zero None 0 0 None None;
           Ticket.mk [x02] Address_zero None 7 0 None None])
    [x03]
  = Some [Ticket.mk [x01] Address_zero None 0 0 None None;
          Ticket.mk [x02] Address_zero None 7 0 None None].
Proof.
  apply (proj1 (proj2 (TicketSlice_Delete_first
                  [Ticket.mk [x01] Address_zero None 0 0 None None;
                   Ticket.mk [x02] Address_zero None 7 0 None None]
                  [x03]))).
  intros x Hx. apply elem_of_cons in Hx as [-> | Hx]; [discriminate | ].
  apply list_elem_of_singleton in Hx. subst x. discriminate.
Defined.

(** X18: [Delete] leaves what [Get] finds for every other identifier; and
    in a collection whose identifiers are all different, [Get] no longer
    finds the identifier deleted. *)
Theorem TicketSlice_Get_after_Delete (l : list Ticket.t) (tid tid' : Hash) :
  (tid' <> tid ->
   TicketSlice.Get (TicketSlice.Delete (Some l) tid) tid'
   = TicketSlice.Get (Some l) tid') /\
  (NoDup (Ticket.ID <$> l) ->
   TicketSlice.Get (TicketSlice.Delete (Some l) tid) tid = (None, false)).
Proof.
  destruct (first_with_ID l tid) as [Hnone | (l1 & x & l2 & -> & Hx & Hl1)].
  - rewrite (Delete_absent l tid Hnone). split; [reflexivity | ].
    intros _. unfold TicketSlice.Get. simpl. rewrite Get_loop_eq.
    rewrite (proj1 (filter_ID_none l tid) Hnone). reflexivity.
  - rewrite (Delete_first l1 l2 x tid Hx Hl1). unfold TicketSlice.Get. simpl.
    split.
    + intros Hne. symmetry. apply Get_loop_skip. congruence.
    + intros Hnd. rewrite Get_loop_eq.
      assert (Hl2 : forall y, y ∈ l2 -> Ticket.ID y <> tid).
      { intros y Hy Hid. rewrite fmap_app, fmap_cons in Hnd.
        apply NoDup_app in Hnd as (_ & _ & Hnd).
        apply NoDup_cons in Hnd as [Hnotin _]. apply Hnotin.
        rewrite Hx, <- Hid. apply list_elem_of_fmap_2. exact Hy. }
      rewrite filter_app.
      rewrite (proj1 (filter_ID_none l1 tid) Hl1).
      rewrite (proj1 (filter_ID_none l2 tid) Hl2). reflexivity.
Qed.

Lemma TicketSlice_Get_after_Delete_witness :
  TicketSlice.Get
    (TicketSlice.Delete
       (Some [Ticket.mk [x01] Address_zero None 0 0 None None;
              Ticket.mk [x02] Address_zero None 7 0 None None])
       [x02])
    [x02] = (None, false).
Proof.
  apply (proj2 (TicketSlice_Get_after_Delete
                  [Ticket.mk [x01] Address_zero None 0 0 None None;
                   Ticket.mk [x02] Address_zero None 7 0 None None]
                  [x02] [x02])).
  simpl. apply NoDup_cons. split.
  - intros H. apply list_elem_of_singleton in H. discriminate.
  - apply NoDup_singleton.
Defined.

(** X19: [Add] puts the ticket at the end: the length grows by one, [Get]
    still finds what it found before and finds the new ticket only for an
    identifier that no earlier ticket has, and deleting the identifier of
    the new ticket, when it is new, gives the tickets back as they were. *)
Theorem TicketSlice_Add_spec (s : TicketSlice.t) (t : Ticket.t) (tid : Hash) :
  TicketSlice.Len (TicketSlice.Add s t) = S (TicketSlice.Len s) /\
  TicketSlice.Get (TicketSlice.Add s t) tid
  = (if snd (TicketSlice.Get s tid) then TicketSlice.Get s tid
     else if decide (Ticket.ID t = tid) then (Some t, true)
     else (None, false)) /\
  ((forall x, x ∈ TicketSlice.elements s -> Ticket.ID x <> Ticket.ID t) ->
   TicketSlice.Delete (TicketSlice.Add s t) (Ticket.ID t)
   = Some (TicketSlice.elements s)).
Proof.
  split; [ | split].
  - unfold TicketSlice.Add, TicketSlice.Len. rewrite length_app.
    destruct s as [l|]; simpl; lia.
  - unfold TicketSlice.Get, TicketSlice.Add. cbn [TicketSlice.elements].
    set (l := TicketSlice.elements s).
    rewrite !Get_loop_eq, filter_app.
    destruct (filter _ l) as [|y k]; simpl.
    + rewrite filter_cons, filter_nil.
      destruct (decide (Ticket.ID t = tid)); reflexivity.
    + reflexivity.
  - intros Hnew. unfold TicketSlice.Add.
    rewrite (Delete_first (TicketSlice.elements s) [] t (Ticket.ID t)
               eq_refl Hnew).
    rewrite app_nil_r. reflexivity.
Qed.

Lemma TicketSlice_Add_spec_witness :
  TicketSlice.Delete
    (TicketSlice.Add None (Ticket.mk [x01] Address_zero None 0 0 None None))
    [x01] = Some [].
Proof.
  apply (proj2 (proj2 (TicketSlice_Add_spec None
                  (Ticket.mk [x01] Address_zero None 0 0 None None) [x01]))).
  intros x Hx. inversion Hx.
Defined.




Lemma ToMap_fold (l : list Ticket.t) (m : gmap (list byte) Ticket.t)
  (tid : Hash) :
  fold_left (fun r x => <[Ticket.ID x := x]> r) l m !! tid =
  match last (filter (fun x => Ticket.ID x = tid) l) with
  | Some x => Some x
  | None => m !! tid
  end.
Proof.
  revert m. induction l as [|x l IH]; intros m; [reflexivity | ].
  cbn [fold_left]. rewrite IH, filter_cons.
  destruct (decide (Ticket.ID x = tid)) as [Hx | Hx].
  - rewrite last_cons.
    destruct (last (filter _ l)); [reflexivity | ].
    rewrite Hx. apply lookup_insert_eq.
  - destruct (last (filter _ l)); [reflexivity | ].
    apply lookup_insert_ne. exact Hx.
Qed.

(** With identifiers all different, at most one ticket has a given one. *)
Lemma filter_ID_NoDup (l : list Ticket.t) (tid : Hash) :
  NoDup (Ticket.ID <$> l) ->
  filter (fun x => Ticket.ID x = tid) l = [] \/
  exists x, filter (fun x => Ticket.ID x = tid) l = [x].
Proof.
  induction l as [|x l IH]; intros Hnd; [left; reflexivity | ].
  rewrite fmap_cons in Hnd. apply NoDup_cons in Hnd as [Hnotin Hnd].
  rewrite filter_cons. destruct (decide (Ticket.ID x = tid)) as [Hx | Hx].
  - right. exists x. f_equal. apply filter_ID_none.
    intros y Hy Hid. apply Hnotin. rewrite Hx, <- Hid.
    apply list_elem_of_fmap_2. exact Hy.
  - apply IH. exact Hnd.
Qed.

(** X21: [ToMap] maps an identifier to the last ticket of the collection
    that has it, and to nothing when no ticket has it. Where the
    identifiers are all different this is the ticket [Get] finds, and
    every ticket of the collection is found under its identifier. *)
Theorem TicketSlice_ToMap_last (s : TicketSlice.t) (tid : Hash) :
  TicketSlice.ToMap s !! tid
  = last (filter (fun x => Ticket.ID x = tid) (TicketSlice.elements s)) /\
  (NoDup (Ticket.ID <$> TicketSlice.elements s) ->
   TicketSlice.ToMap s !! tid = fst (TicketSlice.Get s tid) /\
   forall x, x ∈ TicketSlice.elements s ->
             TicketSlice.ToMap s !! Ticket.ID x = Some x).
Proof.
  assert (Hlast : forall k, TicketSlice.ToMap s !! k =
            last (filter (fun x => Ticket.ID x = k) (TicketSlice.elements s))).
  { intros k. unfold TicketSlice.ToMap. cbv zeta. rewrite ToMap_fold.
    destruct (last _); [reflexivity | apply lookup_empty]. }
  split; [apply Hlast | ].
  intros Hnd. split.
  - rewrite Hlast. unfold TicketSlice.Get. rewrite Get_loop_eq.
    destruct (filter_ID_NoDup _ tid Hnd) as [E | [x E]]; rewrite E; reflexivity.
  - intros x Hx. rewrite Hlast.
    assert (Hin : x ∈ filter (fun y => Ticket.ID y = Ticket.ID x)
                      (TicketSlice.elements s)).
    { apply list_elem_of_filter. split; [reflexivity | exact Hx]. }
    destruct (filter_ID_NoDup _ (Ticket.ID x) Hnd) as [E | [y E]];
      rewrite E in Hin.
    + inversion Hin.
    + apply list_elem_of_singleton in Hin. subst y. rewrite E. reflexivity.
Qed.

Lemma TicketSlice_ToMap_last_witness :
  TicketSlice.ToMap
    (Some [Ticket.mk [x01] Address_zero None 0 0 None None;
           Ticket.mk [x02] Address_zero None 7 0 None None])
  !! [x02]
  = Some (Ticket.mk [x02] Address_zero None 7 0 None None).
Proof.
  apply (proj2 (TicketSlice_ToMap_last
                  (Some [Ticket.mk [x01] Address_zero None 0 0 None None;
                         Ticket.mk [x02] Address_zero None 7 0 None None])
                  [x02])).
  simpl. apply NoDup_cons. split.
  - intros H. apply list_elem_of_singleton in H. discriminate.
  - apply NoDup_singleton.
Defined.

Lemma fold_snoc_fmap {A B} (f : A -> B) (l : list A) (r : list B) :
  fold_left (fun r x => r ++ [f x]) l r = r ++ (f <$> l).
Proof.
  revert r. induction l as [|x l IH]; intros r; simpl.
  - rewrite app_nil_r. reflexivity.
  - rewrite IH, <- app_assoc. reflexivity.
Qed.

(** X22: [ToTicketStructSlice] pairs every ticket with its own [ID], in
    order, and [ToTicketSlice] takes the tickets out again: the way there
    and back gives the tickets of the collection, as a slice that is not
    nil even when the collection was. The other way round, the hash of
    every pair is replaced by the [ID] of its ticket. *)
Theorem TicketStructSlice_round_trip (s : TicketSlice.t)
  (ss : TicketSlice.TicketStructSlice) :
  TicketSlice.ToTicketStructSlice s
  = Some (Ticket_toTicketStruct <$> TicketSlice.elements s) /\
  Forall (fun x => TicketStruct.Hash_ x = Ticket.ID (TicketStruct.Ticket_ x))
    (TicketSlice.elements (TicketSlice.ToTicketStructSlice s)) /\
  TicketSlice.ToTicketSlice (TicketSlice.ToTicketStructSlice s)
  = Some (TicketSlice.elements s) /\
  TicketSlice.ToTicketSlice (TicketSlice.ToTicketStructSlice None) = Some [] /\
  TicketSlice.ToTicketStructSlice (TicketSlice.ToTicketSlice ss)
  = Some ((fun x => TicketStruct.mk (Ticket.ID (TicketStruct.Ticket_ x))
                      (TicketStruct.Ticket_ x))
          <$> TicketSlice.elements ss).
Proof.
  assert (E1 : forall s, TicketSlice.ToTicketStructSlice s
               = Some (Ticket_toTicketStruct <$> TicketSlice.elements s)).
  { intros s'. unfold TicketSlice.ToTicketStructSlice. cbv zeta.
    rewrite fold_snoc_fmap. reflexivity. }
  assert (E2 : forall ss, TicketSlice.ToTicketSlice ss
               = Some (TicketStruct.Ticket_ <$> TicketSlice.elements ss)).
  { intros ss'. unfold TicketSlice.ToTicketSlice. cbv zeta.
    rewrite fold_snoc_fmap. reflexivity. }
  split; [apply E1 | ].
  split; [ | split; [ | split]].
  - rewrite E1. simpl. apply Forall_fmap, Forall_true. intros x. reflexivity.
  - rewrite E2, E1. simpl. rewrite <- list_fmap_compose.
    f_equal. apply list_fmap_id.
  - reflexivity.
  - rewrite E1, E2. simpl. rewrite <- list_fmap_compose. reflexivity.
Qed.

Lemma swap_lookup (l : list Ticket.t) (i j k : nat) (x y : Ticket.t) :
  l !! i = Some x -> l !! j = Some y ->
  <[j := x]> (<[i := y]> l) !! k =
  if decide (k = j) then Some x
  else if decide (k = i) then Some y else l !! k.
Proof.
  intros Hi Hj.
  pose proof (lookup_lt_Some _ _ _ Hi) as Li.
  pose proof (lookup_lt_Some _ _ _ Hj) as Lj.
  destruct (decide (k = j)) as [-> | Hkj].
  - apply list_lookup_insert_eq. rewrite length_insert. exact Lj.
  - rewrite list_lookup_insert_ne by congruence.
    destruct (decide (k = i)) as [-> | Hki].
    + apply list_lookup_insert_eq. exact Li.
    + apply list_lookup_insert_ne. congruence.
Qed.

(** X23: [Swap] panics exactly when an index is outside the collection.
    Otherwise the collection keeps its length, the tickets at the two
    indices have changed places and every other ticket is where it was;
    the result is a permutation of the collection, and the same [Swap]
    once more gives the collection back. *)
Theorem TicketSlice_Swap_spec (s : TicketSlice.t) (i j : nat) :
  (TicketSlice.Swap s i j = None <->
   ~ (i < TicketSlice.Len s /\ j < TicketSlice.Len s)%nat) /\
  (forall l' : list Ticket.t,
     TicketSlice.Swap s i j = Some l' ->
     length l' = TicketSlice.Len s /\
     l' !! i = TicketSlice.elements s !! j /\
     l' !! j = TicketSlice.elements s !! i /\
     (forall k, k <> i -> k <> j -> l' !! k = TicketSlice.elements s !! k) /\
     l' ≡ₚ TicketSlice.elements s /\
     TicketSlice.Swap (Some l') i j = Some (TicketSlice.elements s)).
Proof.
  assert (HLen : TicketSlice.Len s = length (TicketSlice.elements s))
    by (destruct s; reflexivity).
  rewrite HLen. unfold TicketSlice.Swap. cbv zeta.
  set (l := TicketSlice.elements s). split.
  - destruct (l !! i) as [x|] eqn:Hi.
    + destruct (l !! j) as [y|] eqn:Hj.
      * split; [discriminate | ]. intros H. exfalso. apply H.
        split; eapply lookup_lt_Some; eassumption.
      * split; [ | reflexivity]. intros _ [_ H].
        apply lookup_ge_None in Hj. lia.
    + split; [ | reflexivity]. intros _ [H _].
      apply lookup_ge_None in Hi. lia.
  - intros l' H.
    destruct (l !! i) as [x|] eqn:Hi; [ | discriminate].
    destruct (l !! j) as [y|] eqn:Hj; [ | discriminate].
    injection H as <-.
    pose proof (swap_lookup l i j) as L.
    specialize (fun k => L k x y Hi Hj).
    split; [rewrite !length_insert; reflexivity | ].
    split; [ | split; [ | split; [ | split]]].
    + rewrite L. repeat case_decide; congruence.
    + rewrite L. repeat case_decide; congruence.
    + intros k Hki Hkj. rewrite L. repeat case_decide; congruence.
    + apply Permutation_inj. split; [rewrite !length_insert; reflexivity | ].
      exists (fun k => if decide (k = j) then i
                       else if decide (k = i) then j else k).
      split.
      * intros a b. repeat case_decide; congruence.
      * intros k. rewrite L. repeat case_decide; subst; congruence.
    + cbn [TicketSlice.elements].
      assert (A : <[j := x]> (<[i := y]> l) !! i = Some y)
        by (rewrite L; repeat case_decide; congruence).
      assert (B : <[j := x]> (<[i := y]> l) !! j = Some x)
        by (rewrite L; repeat case_decide; congruence).
      rewrite A, B. f_equal. apply list_eq. intros k.
      rewrite (swap_lookup _ i j k y x A B), L.
      repeat case_decide; congruence.
Qed.

Lemma TicketSlice_Swap_spec_witness :
  TicketSlice.Swap
    (Some [Ticket.mk [x02] Address_zero None 0 0 None None;
           Ticket.mk [x01] Address_zero None 0 0 None None])
    0 1
  = Some [Ticket.mk [x01] Address_zero None 0 0 None None;
          Ticket.mk [x02] Address_zero None 0 0 None None].
Proof.
  apply (proj2 (proj2 (proj2 (proj2 (proj2
           (proj2 (TicketSlice_Swap_spec
                     (Some [Ticket.mk [x01] Address_zero None 0 0 None None;
                            Ticket.mk [x02] Address_zero None 0 0 None None])
                     0 1)
              [Ticket.mk [x02] Address_zero None 0 0 None None;
               Ticket.mk [x01] Address_zero None 0 0 None None]
              eq_refl)))))).
Defined.


(** ** More on the checksum display *)

Lemma string_of_list_byte_length (l : list byte) :
  String.length (String.string_of_list_byte l) = length l.
Proof.
  induction l as [|b l IH]; [reflexivity | ].
  change (String.string_of_list_byte (b :: l))
    with (String (ascii_of_byte b) (String.string_of_list_byte l)).
  cbn [String.length]. rewrite IH. reflexivity.
Qed.

Lemma HexToAddress_Hex (Keccak256 : list byte -> list byte) (a : Address) :
  is_Address a -> HexToAddress (Address_Hex Keccak256 a) = a.
Proof.
  intros Ha. rewrite Address_Hex_eq.
  set (s := String.string_of_list_byte _).
  change ("0x" +:+ s) with (String "0" (String "x" s)).
  unfold HexToAddress, FromHex, DecodeString. subst s.
  rewrite String.list_byte_of_string_of_list_byte.
  rewrite (Decode_same_hex a).
  - apply BytesToAddress_id. exact Ha.
  - apply imap_same_hex; [ | apply Encode_lower_hex].
    intros i c Hc. apply Hex_char_same_hex. exact Hc.
Qed.

(** X24: the checksum text of a 20-byte address has 42 characters, and
    different addresses have different texts, whatever the digest
    function: the text determines the address. Displaying the address
    decoded from a checksum text gives that text again. *)
Theorem Address_Hex_injective (Keccak256 : list byte -> list byte)
  (a b : Address) :
  is_Address a -> is_Address b ->
  String.length (Address_Hex Keccak256 a) = 42%nat /\
  (Address_Hex Keccak256 a = Address_Hex Keccak256 b -> a = b) /\
  Address_Hex Keccak256 (HexToAddress (Address_Hex Keccak256 a))
  = Address_Hex Keccak256 a.
Proof.
  intros Ha Hb. split; [ | split].
  - rewrite Address_Hex_eq.
    set (s := String.string_of_list_byte _).
    change ("0x" +:+ s) with (String "0" (String "x" s)).
    cbn [String.length]. subst s.
    rewrite string_of_list_byte_length, length_imap, Encode_length, Ha.
    reflexivity.
  - intros E.
    rewrite <- (HexToAddress_Hex Keccak256 a Ha),
            <- (HexToAddress_Hex Keccak256 b Hb), E.
    reflexivity.
  - rewrite (HexToAddress_Hex Keccak256 a Ha). reflexivity.
Qed.

Lemma Address_Hex_injective_witness :
  String.length
    (Address_Hex (fun _ => replicate 32 xa7) (replicate 18 xab ++ [x1f; xc0]))
  = 42%nat.
Proof.
  apply (Address_Hex_injective (fun _ => replicate 32 xa7)
           (replicate 18 xab ++ [x1f; xc0])
           (replicate 18 xab ++ [x1f; xc0])); reflexivity.
Defined.
